(** * enum_helpers.hpp: enum_iterator and enum_array

    A shallow embedding of the two class templates of [enum_helpers.hpp].
    Integers of the enumeration's underlying type are values of [Z] with the
    conversions of C++ written out; a template parameter is a section
    variable; an operation that can hit [ENUM_HELPERS_ASSERT] or undefined
    behaviour returns an [outcome]; a loop takes fuel. *)

From Stdlib Require Import ZArith Lia String.
From stdpp Require Import base tactics option list.

Local Open Scope Z_scope.

(** ** Integer types *)

(** [std::underlying_type<EnumType>::type]: the fixed-width integer types an
    enumeration can be declared over ([enum class Foo] alone is [Int32]). *)
Inductive integer_type : Set :=
  | Int8 | UInt8 | Int16 | UInt16 | Int32 | UInt32 | Int64 | UInt64.

Definition bits (t : integer_type) : Z :=
  match t with
  | Int8 | UInt8 => 8
  | Int16 | UInt16 => 16
  | Int32 | UInt32 => 32
  | Int64 | UInt64 => 64
  end.

Definition is_signed (t : integer_type) : bool :=
  match t with
  | Int8 | Int16 | Int32 | Int64 => true
  | UInt8 | UInt16 | UInt32 | UInt64 => false
  end.

Definition min_value (t : integer_type) : Z :=
  if is_signed t then - 2 ^ (bits t - 1) else 0.

Definition max_value (t : integer_type) : Z :=
  if is_signed t then 2 ^ (bits t - 1) - 1 else 2 ^ bits t - 1.

Definition representable (t : integer_type) (z : Z) : Prop :=
  min_value t <= z <= max_value t.

Definition representableb (t : integer_type) (z : Z) : bool :=
  (min_value t <=? z) && (z <=? max_value t).

(** Conversion of an integer value to type [t]: the value modulo [2 ^ bits t],
    taken in the range of [t]. *)
Definition convert (t : integer_type) (z : Z) : Z :=
  if is_signed t
  then (z + 2 ^ (bits t - 1)) mod 2 ^ bits t - 2 ^ (bits t - 1)
  else z mod 2 ^ bits t.

(** [std::size_t(x)], with a 64-bit [std::size_t]. *)
Definition to_size_t (z : Z) : Z := convert UInt64 z.

(** ** Outcomes *)

(** What a call can end in: a value, a failed [ENUM_HELPERS_ASSERT], or
    behaviour the language leaves undefined. *)
Inductive outcome (A : Type) : Type :=
  | Ok (a : A)
  | ContractViolation
  | Undefined.
Arguments Ok {A} a.
Arguments ContractViolation {A}.
Arguments Undefined {A}.

#[global] Instance outcome_ret : MRet outcome := fun A a => Ok a.
#[global] Instance outcome_bind : MBind outcome := fun A B f m =>
  match m with
  | Ok a => f a
  | ContractViolation => ContractViolation
  | Undefined => Undefined
  end.

#[global] Instance outcome_fmap : FMap outcome := fun A B f m =>
  match m with
  | Ok a => Ok (f a)
  | ContractViolation => ContractViolation
  | Undefined => Undefined
  end.

(** [ENUM_HELPERS_ASSERT], which is [assert] unless the user overrides it:
    a false condition aborts. *)
Definition ENUM_HELPERS_ASSERT (cond : bool) : outcome unit :=
  if cond then Ok tt else ContractViolation.

(** ** Enumeration values *)

(** A value of [EnumType] is a value of its underlying type under another
    type: [to_enum] is [static_cast<EnumType>], [to_integer] is
    [static_cast<integer_type>]. *)
Record EnumType : Set := to_enum { to_integer : Z }.

(** ** The loop [for (it = first; it != last; ++it) yield( *it )] *)

(** A range-based [for] over an object with [begin()] and [end()], and the
    hand-written loops of the usage sample, all have this shape. The result
    is the list of values the body has seen and how the loop ended: [Ok tt]
    when [it] became equal to [last]. [None]: the fuel ran out. *)
Section loop.
Context {It A : Type}.
Variable ne : It -> It -> bool.
Variable deref : It -> outcome A.
Variable next : It -> outcome It.

Fixpoint iterate (fuel : nat) (it last : It) : option (list A * outcome unit) :=
  match fuel with
  | O => None
  | S fuel' =>
      if ne it last then
        match deref it with
        | Ok v =>
            match next it with
            | Ok it' =>
                match iterate fuel' it' last with
                | Some (vs, r) => Some (v :: vs, r)
                | None => None
                end
            | ContractViolation => Some ([v], ContractViolation)
            | Undefined => Some ([v], Undefined)
            end
        | ContractViolation => Some ([], ContractViolation)
        | Undefined => Some ([], Undefined)
        end
      else Some ([], Ok tt)
  end.
End loop.

(** ** template class enum_iterator *)

Module enum_iterator.

Record t : Set := mk { m_current : Z }.

Section with_template_parameters.
(** [typename EnumType] (through its underlying type), [EnumType Last]
    and [unsigned int Step]. *)
Variable integer_type_ : integer_type.
Variable Last : EnumType.
Variable Step : Z.

(** [m_current += Step]. [Step] is an [unsigned int]. For an
    [integer_type] of at most 32 bits the left operand is promoted and
    converted to [unsigned int], the sum is taken modulo [2^32] and
    converted back to [integer_type]. For a 64-bit type [Step] is
    converted to it; a signed sum that overflows is undefined. *)
Definition add_assign (m : Z) : outcome Z :=
  if bits integer_type_ <=? 32 then
    Ok (convert integer_type_ (convert UInt32 (convert UInt32 m + Step)))
  else if is_signed integer_type_ then
    if representableb integer_type_ (m + Step) then Ok (m + Step) else Undefined
  else Ok (convert integer_type_ (m + Step)).

(** [constexpr enum_iterator() noexcept : m_current{ 0 }] *)
Definition default : t := {| m_current := 0 |}.

(** [constexpr enum_iterator(const EnumType index) noexcept] *)
Definition from_index (index : EnumType) : t :=
  {| m_current := to_integer index |}.

(** The copy constructor (implicit). *)
Definition copy (other : t) : t := {| m_current := m_current other |}.

(** [enum_iterator operator++()]: the pair is the returned iterator and
    the receiver after the call. *)
Definition pre_increment (self : t) : outcome (t * t) :=
  m ← add_assign (m_current self);
  let self' := {| m_current := m |} in
  mret (copy self', self').

(** [enum_iterator operator++(int)], same convention. *)
Definition post_increment (self : t) : outcome (t * t) :=
  let old_val := copy self in
  m ← add_assign (m_current self);
  mret (old_val, {| m_current := m |}).

(** [EnumType operator*() const] *)
Definition deref (self : t) : outcome EnumType :=
  _ ← ENUM_HELPERS_ASSERT (m_current self <? to_integer Last);
  mret (to_enum (m_current self)).

Definition eq (self other : t) : bool := m_current self =? m_current other.
Definition ne (self other : t) : bool := negb (m_current self =? m_current other).
Definition lt (self other : t) : bool := m_current self <? m_current other.
Definition gt (self other : t) : bool := m_current self >? m_current other.
Definition le (self other : t) : bool := m_current self <=? m_current other.
Definition ge (self other : t) : bool := m_current self >=? m_current other.

(** [enum_iterator begin() const] and [enum_iterator end() const] *)
Definition begin (self : t) : t := default.
Definition end_ (self : t) : t := from_index Last.

(** [for (auto c = iter.begin(); c != iter.end(); ++c) yield( *c )],
    which is also [for (auto c : iter) yield(c)]. *)
Definition range_for (fuel : nat) (iter : t) : option (list EnumType * outcome unit) :=
  iterate ne deref (fun c => snd <$> pre_increment c) fuel (begin iter) (end_ iter).

End with_template_parameters.
End enum_iterator.

(** ** template struct enum_array *)

Module enum_array.

(** [DataType m_elements[std::size_t(ArraySize)]] *)
Record t (DataType : Type) : Type := mk { m_elements : list DataType }.
Arguments mk {DataType} m_elements.
Arguments m_elements {DataType} _.

(** A [DataType *] or a [DataType &] into [m_elements] is the position it
    designates, counted from [&m_elements[0]]. *)
Definition pointer : Set := Z.

(** [std::reverse_iterator<iterator>] holds the position one past the
    element it designates. *)
Record reverse_iterator : Set := mk_reverse { current : pointer }.

Section with_template_parameters.
(** [typename EnumType] (through its underlying type), [typename
    DataType] and [EnumType ArraySize]. *)
Variable integer_type_ : integer_type.
Context {DataType : Type}.
Variable ArraySize : EnumType.

(** [static constexpr std::size_t size()] *)
Definition size : Z := to_size_t (to_integer ArraySize).

(** The storage has exactly [size()] slots. *)
Definition well_formed (a : t DataType) : Prop :=
  Z.of_nat (length (m_elements a)) = size.

(** Aggregate initialisation [enum_array<E, D> a{ { v0, v1, ... } }]:
    more initialisers than slots do not compile ([None]); slots without
    an initialiser are value-initialised. *)
Definition aggregate_init (value_init : DataType) (vs : list DataType)
  : option (t DataType) :=
  if Z.of_nat (length vs) <=? size
  then Some (mk (vs ++ replicate (Z.to_nat size - length vs)%nat value_init))
  else None.

(** [using key_iterator = enum_iterator<EnumType, ArraySize>] and
    [static constexpr key_iterator keys()] *)
Definition keys : enum_iterator.t := enum_iterator.default.

(** [for (auto k : array.keys()) yield(k)]: the key iterator has
    [Last = ArraySize] and the default [Step = 1]. *)
Definition for_keys (fuel : nat) : option (list EnumType * outcome unit) :=
  enum_iterator.range_for integer_type_ ArraySize 1 fuel keys.

(** Reading [*p], writing [*p = v], [++p] and [--p]: defined only inside
    the storage (and, for the arithmetic, up to one past its end). *)
Definition load (a : t DataType) (p : pointer) : outcome DataType :=
  if 0 <=? p then
    match m_elements a !! Z.to_nat p with
    | Some v => Ok v
    | None => Undefined
    end
  else Undefined.

Definition store (a : t DataType) (p : pointer) (v : DataType) : outcome (t DataType) :=
  if (0 <=? p) && (p <? Z.of_nat (length (m_elements a)))
  then Ok (mk (<[Z.to_nat p := v]> (m_elements a)))
  else Undefined.

Definition pointer_next (a : t DataType) (p : pointer) : outcome pointer :=
  if (0 <=? p) && (p <? Z.of_nat (length (m_elements a)))
  then Ok (p + 1) else Undefined.

Definition pointer_prev (a : t DataType) (p : pointer) : outcome pointer :=
  if (0 <? p) && (p <=? Z.of_nat (length (m_elements a)))
  then Ok (p - 1) else Undefined.

Definition pointer_ne (p q : pointer) : bool := negb (p =? q).

(** [DataType & operator[](const std::size_t index)] and its [const]
    overload, which has the same body: the reference [m_elements[index]]. *)
Definition subscript (a : t DataType) (index : Z) : outcome pointer :=
  _ ← ENUM_HELPERS_ASSERT (index <? size);
  mret index.

(** [DataType & operator[](const EnumType index)] and its [const]
    overload. *)
Definition subscript_key (a : t DataType) (index : EnumType) : outcome pointer :=
  _ ← ENUM_HELPERS_ASSERT (to_size_t (to_integer index) <? size);
  mret (to_size_t (to_integer index)).

(** [array[index]] read, and [array[index] = v]. *)
Definition get (a : t DataType) (index : Z) : outcome DataType :=
  r ← subscript a index; load a r.
Definition get_key (a : t DataType) (index : EnumType) : outcome DataType :=
  r ← subscript_key a index; load a r.
Definition set (a : t DataType) (index : Z) (v : DataType) : outcome (t DataType) :=
  r ← subscript a index; store a r v.
Definition set_key (a : t DataType) (index : EnumType) (v : DataType)
  : outcome (t DataType) :=
  r ← subscript_key a index; store a r v.

(** [begin()], [end()], [rbegin()], [rend()] *)
Definition begin (a : t DataType) : pointer := 0.
Definition end_ (a : t DataType) : pointer := size.
Definition rbegin (a : t DataType) : reverse_iterator := mk_reverse (end_ a).
Definition rend (a : t DataType) : reverse_iterator := mk_reverse (begin a).

(** [std::reverse_iterator]: [*r] is [*--tmp] for a copy [tmp] of
    [current]; [++r] is [--current]; [!=] compares [current]. *)
Definition reverse_deref (a : t DataType) (r : reverse_iterator) : outcome DataType :=
  tmp ← pointer_prev a (current r); load a tmp.
Definition reverse_next (a : t DataType) (r : reverse_iterator) : outcome reverse_iterator :=
  mk_reverse <$> pointer_prev a (current r).
Definition reverse_ne (r s : reverse_iterator) : bool :=
  pointer_ne (current r) (current s).

(** [for (const auto & s : array) yield(s)] *)
Definition for_elements (fuel : nat) (a : t DataType)
  : option (list DataType * outcome unit) :=
  iterate pointer_ne (load a) (pointer_next a) fuel (begin a) (end_ a).

(** [for (auto i = array.rbegin(); i != array.rend(); ++i) yield( *i )] *)
Definition for_elements_reversed (fuel : nat) (a : t DataType)
  : option (list DataType * outcome unit) :=
  iterate reverse_ne (reverse_deref a) (reverse_next a) fuel (rbegin a) (rend a).

End with_template_parameters.
End enum_array.

(** The enumeration of the usage sample. *)
Module Foo.
Definition Bar : EnumType := to_enum 0.
Definition Baz : EnumType := to_enum 1.
Definition Fooz : EnumType := to_enum 2.
Definition Count : EnumType := to_enum 3.
End Foo.

(** ** Notions the properties are stated with *)

(** The values [0, step, 2S, ...] strictly below [N], ascending. *)
Definition multiples_below (step N : Z) : list Z :=
  (fun k => k * step) <$> seqZ 0 ((N + step - 1) / step).

(** The position lies in the half-open range [[0, Last)]. *)
Definition position_below_terminal (Last : EnumType) (it : enum_iterator.t) : Prop :=
  0 <= enum_iterator.m_current it < to_integer Last.

(** The position is a multiple of [Step] in the closed range [[0, Last]]:
    where a traversal from [begin()] can be when [Step] divides [Last]. *)
Definition position_up_to_terminal (Last : EnumType) (Step : Z) (it : enum_iterator.t) : Prop :=
  0 <= enum_iterator.m_current it <= to_integer Last /\
  (Step | enum_iterator.m_current it).

(** * Facts about the integer types *)

Lemma min_value_le_0 (t : integer_type) : min_value t <= 0.
Proof. destruct t; vm_compute; congruence. Qed.

Lemma representableb_spec (t : integer_type) (z : Z) :
  representableb t z = true <-> representable t z.
Proof. unfold representableb, representable. rewrite andb_true_iff. lia. Qed.

Lemma convert_representable (t : integer_type) (z : Z) :
  representable t z -> convert t z = z.
Proof.
  unfold representable, convert, min_value, max_value.
  destruct t; simpl; intros Hz; try (rewrite Z.mod_small; lia).
Qed.

Lemma convert_in_range (t : integer_type) (z : Z) : representable t (convert t z).
Proof.
  unfold representable, convert, min_value, max_value.
  destruct t; simpl;
    match goal with
    | |- context [?a mod ?m] => pose proof (Z.mod_pos_bound a m eq_refl); lia
    end.
Qed.

Lemma convert_congruent (t : integer_type) (z : Z) :
  exists k, convert t z = z + k * 2 ^ bits t.
Proof.
  unfold convert. destruct (is_signed t).
  - exists (- ((z + 2 ^ (bits t - 1)) / 2 ^ bits t)).
    rewrite Z.mod_eq by (destruct t; discriminate). lia.
  - exists (- (z / 2 ^ bits t)).
    rewrite Z.mod_eq by (destruct t; discriminate). lia.
Qed.

(** Two representable values that differ by a multiple of [2 ^ bits t] are
    the same value. *)
Lemma representable_congruent_eq (t : integer_type) (x y k : Z) :
  representable t x -> representable t y -> x = y + k * 2 ^ bits t -> x = y.
Proof.
  unfold representable, min_value, max_value.
  destruct t; simpl; intros Hx Hy Hk; lia.
Qed.

(** * Facts about [m_current += Step] *)

(** The new position differs from [m + Step] by a multiple of
    [2 ^ bits], whenever the addition is defined. *)
Lemma add_assign_congruent (ity : integer_type) (Step m m' : Z) :
  enum_iterator.add_assign ity Step m = Ok m' ->
  exists k, m' = m + Step + k * 2 ^ bits ity.
Proof.
  unfold enum_iterator.add_assign. intros H.
  destruct (bits ity <=? 32) eqn:Hb.
  - injection H as <-.
    destruct (convert_congruent ity (convert UInt32 (convert UInt32 m + Step))) as [k1 ->].
    destruct (convert_congruent UInt32 (convert UInt32 m + Step)) as [k2 ->].
    destruct (convert_congruent UInt32 m) as [k3 ->].
    change (bits UInt32) with 32.
    exists (k1 + (k2 + k3) * 2 ^ (32 - bits ity)).
    rewrite Z.mul_add_distr_r, <- Z.mul_assoc, <- Z.pow_add_r.
    + replace (32 - bits ity + bits ity) with 32 by lia. lia.
    + apply Z.leb_le in Hb. lia.
    + destruct ity; discriminate.
  - destruct (is_signed ity).
    + destruct (representableb ity (m + Step)); [|discriminate].
      injection H as <-. exists 0. lia.
    + injection H as <-. destruct (convert_congruent ity (m + Step)) as [k ->]. eauto.
Qed.

Lemma add_assign_in_range (ity : integer_type) (Step m m' : Z) :
  enum_iterator.add_assign ity Step m = Ok m' -> representable ity m'.
Proof.
  unfold enum_iterator.add_assign. intros H.
  destruct (bits ity <=? 32).
  - injection H as <-. apply convert_in_range.
  - destruct (is_signed ity).
    + destruct (representableb ity (m + Step)) eqn:Hr; [|discriminate].
      injection H as <-. by apply representableb_spec.
    + injection H as <-. apply convert_in_range.
Qed.

(** Without overflow the addition is the addition of integers. *)
Lemma add_assign_exact (ity : integer_type) (Step m : Z) :
  representable ity (m + Step) ->
  enum_iterator.add_assign ity Step m = Ok (m + Step).
Proof.
  intros Hr.
  destruct (enum_iterator.add_assign ity Step m) as [m'| |] eqn:H.
  - f_equal. destruct (add_assign_congruent _ _ _ _ H) as [k Hk].
    eapply representable_congruent_eq; eauto using add_assign_in_range.
  - unfold enum_iterator.add_assign in H.
    repeat match type of H with (if ?c then _ else _) = _ => destruct c end;
      discriminate.
  - unfold enum_iterator.add_assign in H.
    destruct (bits ity <=? 32); [discriminate|].
    destruct (is_signed ity); [|discriminate].
    apply representableb_spec in Hr. rewrite Hr in H. discriminate.
Qed.

(** * Facts about the loop *)

Section loop_facts.
Context {It A : Type}.
Variable ne : It -> It -> bool.
Variable deref : It -> outcome A.
Variable next : It -> outcome It.

(** One round per element of [vals], each passing the test, reading its
    element and advancing; then whatever the loop does from the position
    reached. *)
Lemma iterate_rounds (last : It) (vals : list A) :
  forall (pos : nat -> It) (fuel : nat) (vs : list A) (r : outcome unit),
  (forall i v, vals !! i = Some v ->
     ne (pos i) last = true /\ deref (pos i) = Ok v /\
     next (pos i) = Ok (pos (S i))) ->
  iterate ne deref next fuel (pos (length vals)) last = Some (vs, r) ->
  iterate ne deref next (length vals + fuel) (pos 0%nat) last = Some (vals ++ vs, r).
Proof.
  induction vals as [|v vals IH]; intros pos fuel vs r Hstep Hrest.
  - exact Hrest.
  - destruct (Hstep 0%nat v) as (Hne & Hd & Hn); [done|].
    simpl. rewrite Hne, Hd, Hn.
    rewrite (IH (fun i => pos (S i)) fuel vs r); [done| |done].
    intros i w Hi. by apply (Hstep (S i)).
Qed.

Lemma iterate_finished (last : It) (vals : list A) (pos : nat -> It) (fuel : nat) :
  (forall i v, vals !! i = Some v ->
     ne (pos i) last = true /\ deref (pos i) = Ok v /\
     next (pos i) = Ok (pos (S i))) ->
  ne (pos (length vals)) last = false ->
  (length vals < fuel)%nat ->
  iterate ne deref next fuel (pos 0%nat) last = Some (vals, Ok tt).
Proof.
  intros Hstep Hstop Hfuel.
  replace fuel with (length vals + S (fuel - S (length vals)))%nat by lia.
  pose proof (iterate_rounds last vals pos (S (fuel - S (length vals))) [] (Ok tt) Hstep) as H.
  rewrite app_nil_r in H. apply H. simpl. by rewrite Hstop.
Qed.

Lemma iterate_aborted (last : It) (vals : list A) (pos : nat -> It) (fuel : nat) :
  (forall i v, vals !! i = Some v ->
     ne (pos i) last = true /\ deref (pos i) = Ok v /\
     next (pos i) = Ok (pos (S i))) ->
  ne (pos (length vals)) last = true ->
  deref (pos (length vals)) = ContractViolation ->
  (length vals < fuel)%nat ->
  iterate ne deref next fuel (pos 0%nat) last = Some (vals, ContractViolation).
Proof.
  intros Hstep Hne Hd Hfuel.
  replace fuel with (length vals + S (fuel - S (length vals)))%nat by lia.
  pose proof (iterate_rounds last vals pos (S (fuel - S (length vals))) []
                ContractViolation Hstep) as H.
  rewrite app_nil_r in H. apply H. simpl. by rewrite Hne, Hd.
Qed.

(** More fuel does not change a result. *)
Lemma iterate_fuel_mono (last : It) (fuel : nat) :
  forall (fuel' : nat) (it : It) (res : list A * outcome unit),
  (fuel <= fuel')%nat ->
  iterate ne deref next fuel it last = Some res ->
  iterate ne deref next fuel' it last = Some res.
Proof.
  induction fuel as [|fuel IH]; intros fuel' it res Hle H; [discriminate|].
  destruct fuel' as [|fuel']; [lia|].
  simpl in *.
  destruct (ne it last); [|done].
  destruct (deref it) as [v| |]; [|done|done].
  destruct (next it) as [it'| |]; [|done|done].
  destruct (iterate ne deref next fuel it' last) as [[vs r]|] eqn:Hrec; [|discriminate].
  rewrite (IH fuel' it' (vs, r)); [done|lia|done].
Qed.
End loop_facts.

(** * Facts about [multiples_below] *)

Lemma ceil_div_bounds (step N : Z) :
  0 < step -> 0 <= N ->
  0 <= (N + step - 1) / step /\ ((N + step - 1) / step - 1) * step < N <= (N + step - 1) / step * step.
Proof.
  intros Hstep HN.
  pose proof (Z.div_mod (N + step - 1) step ltac:(lia)) as Hdm.
  pose proof (Z.mod_pos_bound (N + step - 1) step Hstep) as Hr.
  split; [apply Z.div_pos; lia | nia].
Qed.

Lemma multiples_below_unit (N : Z) : multiples_below 1 N = seqZ 0 N.
Proof.
  unfold multiples_below. replace (N + 1 - 1) with N by lia. rewrite Z.div_1_r.
  rewrite <- (list_fmap_id (seqZ 0 N)) at 2.
  apply list_fmap_ext. intros _ k _. simpl. lia.
Qed.

Lemma lookup_multiples_below (step N : Z) (i : nat) (z : Z) :
  0 < step -> 0 <= N ->
  multiples_below step N !! i = Some z <-> z = Z.of_nat i * step /\ z < N.
Proof.
  intros Hstep HN. unfold multiples_below.
  destruct (ceil_div_bounds step N Hstep HN) as (Hk0 & Hk).
  rewrite list_lookup_fmap, fmap_Some. split.
  - intros (k & Hlk & ->). apply lookup_seqZ in Hlk as [-> Hi]. split; [f_equal; lia | nia].
  - intros [-> Hlt]. exists (Z.of_nat i). split; [|done].
    apply lookup_seqZ. split; [lia | nia].
Qed.

Lemma elem_of_multiples_below (step N z : Z) :
  0 < step -> 0 <= N ->
  z ∈ multiples_below step N <-> (exists k, 0 <= k /\ z = k * step) /\ z < N.
Proof.
  intros Hstep HN. rewrite list_elem_of_lookup. split.
  - intros [i Hi]. apply lookup_multiples_below in Hi as [-> Hlt]; [|done..].
    split; [exists (Z.of_nat i); lia | done].
  - intros [(k & Hk & ->) Hlt]. exists (Z.to_nat k).
    apply lookup_multiples_below; [done..|]. rewrite Z2Nat.id by done. done.
Qed.

Lemma length_multiples_below (step N : Z) :
  length (multiples_below step N) = Z.to_nat ((N + step - 1) / step).
Proof. unfold multiples_below. by rewrite length_fmap, length_seqZ. Qed.

(** * Facts about the traversal of an [enum_iterator] *)

Section enum_iterator_facts.
Variable ity : integer_type.
Variable Last : EnumType.
Variable Step : Z.

(** The loop reads the multiples of [Step] below [Last] and then either
    meets [end()] or steps over it into a dereference that asserts. *)
Lemma range_for_outcome (iter : enum_iterator.t) (fuel : nat) :
  0 < Step -> 0 <= to_integer Last ->
  (to_integer Last + Step - 1) / Step * Step <= max_value ity ->
  (Z.to_nat ((to_integer Last + Step - 1) / Step) < fuel)%nat ->
  enum_iterator.range_for ity Last Step fuel iter =
  Some (to_enum <$> multiples_below Step (to_integer Last),
        if (to_integer Last + Step - 1) / Step * Step =? to_integer Last
        then Ok tt else ContractViolation).
Proof.
  set (N := to_integer Last). set (rounds := (N + Step - 1) / Step).
  intros HS HN Hmax Hfuel.
  destruct (ceil_div_bounds Step N HS HN) as (Hk0 & Hk). fold rounds in Hk0, Hk.
  pose proof (min_value_le_0 ity) as Hmin.
  set (vals := to_enum <$> multiples_below Step N).
  assert (Hlen : length vals = Z.to_nat rounds).
  { unfold vals. by rewrite length_fmap, length_multiples_below. }
  set (pos := fun i : nat => enum_iterator.mk (Z.of_nat i * Step)).
  assert (Hrounds : forall i v, vals !! i = Some v ->
    enum_iterator.ne (pos i) (enum_iterator.end_ Last iter) = true /\
    enum_iterator.deref Last (pos i) = Ok v /\
    snd <$> enum_iterator.pre_increment ity Step (pos i) = Ok (pos (S i))).
  { intros i v Hi. unfold vals in Hi.
    rewrite list_lookup_fmap, fmap_Some in Hi. destruct Hi as (z & Hz & ->).
    apply lookup_multiples_below in Hz as [-> Hlt]; [|done..].
    unfold enum_iterator.ne, enum_iterator.deref, enum_iterator.pre_increment; simpl.
    fold N. repeat split.
    - apply negb_true_iff, Z.eqb_neq. lia.
    - replace (Z.of_nat i * Step <? N) with true by (symmetry; apply Z.ltb_lt; lia).
      done.
    - assert (Z.of_nat i < rounds) by nia.
      assert (Z.of_nat i * Step + Step <= rounds * Step) by nia.
      rewrite add_assign_exact by (unfold representable; lia).
      simpl. unfold pos. do 2 f_equal. lia. }
  unfold enum_iterator.range_for.
  change (enum_iterator.begin iter) with (pos 0%nat).
  destruct (rounds * Step =? N) eqn:Hend.
  - apply iterate_finished; [done| |lia].
    unfold enum_iterator.ne, pos; simpl. fold N.
    apply negb_false_iff. rewrite Hlen, Z2Nat.id by done. done.
  - apply iterate_aborted; [done| | |lia].
    + unfold enum_iterator.ne, pos; simpl. fold N.
      apply negb_true_iff. rewrite Hlen, Z2Nat.id by done. done.
    + unfold enum_iterator.deref, pos; simpl. fold N.
      rewrite Hlen, Z2Nat.id by done.
      apply Z.eqb_neq in Hend.
      replace (rounds * Step <? N) with false by (symmetry; apply Z.ltb_ge; lia).
      done.
Qed.
End enum_iterator_facts.

Lemma range_for_unit_step (ity : integer_type) (Last : EnumType)
    (iter : enum_iterator.t) (fuel : nat) :
  0 <= to_integer Last ->
  representable ity (to_integer Last) ->
  (Z.to_nat (to_integer Last) < fuel)%nat ->
  enum_iterator.range_for ity Last 1 fuel iter =
  Some (to_enum <$> seqZ 0 (to_integer Last), Ok tt).
Proof.
  intros HN [_ Hmax] Hfuel.
  assert (Hrounds : (to_integer Last + 1 - 1) / 1 = to_integer Last)
    by (rewrite Z.div_1_r; lia).
  rewrite range_for_outcome; rewrite ?Hrounds; try lia.
  rewrite multiples_below_unit, Z.mul_1_r, Z.eqb_refl. done.
Qed.

(** * Facts about [enum_array] *)

Lemma to_size_t_small (z : Z) : 0 <= z < 2 ^ 64 -> to_size_t z = z.
Proof. intros Hz. unfold to_size_t, convert; simpl. apply Z.mod_small. lia. Qed.

Lemma max_value_size_t (t : integer_type) : max_value t < 2 ^ 64.
Proof. destruct t; reflexivity. Qed.

Lemma to_size_t_enum (ity : integer_type) (z : Z) :
  0 <= z -> representable ity z -> to_size_t z = z.
Proof.
  intros Hz [_ Hmax]. pose proof (max_value_size_t ity).
  apply to_size_t_small. lia.
Qed.

Section enum_array_facts.
Context {DataType : Type}.
Variable ArraySize : EnumType.
Implicit Types (a : enum_array.t DataType) (v : DataType) (index : Z).

Lemma aggregate_init_exact (value_init : DataType) (vs : list DataType) :
  Z.of_nat (length vs) = enum_array.size ArraySize ->
  enum_array.aggregate_init ArraySize value_init vs = Some (enum_array.mk vs).
Proof.
  intros Hlen. unfold enum_array.aggregate_init.
  replace (Z.of_nat (length vs) <=? enum_array.size ArraySize) with true
    by (symmetry; apply Z.leb_le; lia).
  replace (Z.to_nat (enum_array.size ArraySize) - length vs)%nat with 0%nat by lia.
  simpl. by rewrite app_nil_r.
Qed.

Lemma load_lookup a (i : nat) v :
  enum_array.m_elements a !! i = Some v -> enum_array.load a (Z.of_nat i) = Ok v.
Proof.
  intros Hi. unfold enum_array.load.
  replace (0 <=? Z.of_nat i) with true by (symmetry; apply Z.leb_le; lia).
  by rewrite Nat2Z.id, Hi.
Qed.

Lemma subscript_in_range a index :
  index < enum_array.size ArraySize -> enum_array.subscript ArraySize a index = Ok index.
Proof.
  intros Hi. unfold enum_array.subscript.
  replace (index <? enum_array.size ArraySize) with true by (symmetry; apply Z.ltb_lt; lia).
  done.
Qed.

Lemma subscript_out_of_range a index :
  enum_array.size ArraySize <= index ->
  enum_array.subscript ArraySize a index = ContractViolation.
Proof.
  intros Hi. unfold enum_array.subscript.
  replace (index <? enum_array.size ArraySize) with false by (symmetry; apply Z.ltb_ge; lia).
  done.
Qed.

Lemma subscript_key_as_position a (key : EnumType) :
  enum_array.subscript_key ArraySize a key =
  enum_array.subscript ArraySize a (to_size_t (to_integer key)).
Proof. reflexivity. Qed.

Lemma get_lookup a (i : nat) v :
  enum_array.well_formed ArraySize a ->
  enum_array.m_elements a !! i = Some v ->
  enum_array.get ArraySize a (Z.of_nat i) = Ok v.
Proof.
  intros Hwf Hi. unfold enum_array.get.
  apply lookup_lt_Some in Hi as Hlt.
  rewrite subscript_in_range by (unfold enum_array.well_formed in Hwf; lia).
  simpl. by apply load_lookup.
Qed.

Lemma get_key_lookup (ity : integer_type) a (i : nat) v :
  representable ity (Z.of_nat i) ->
  enum_array.well_formed ArraySize a ->
  enum_array.m_elements a !! i = Some v ->
  enum_array.get_key ArraySize a (to_enum (Z.of_nat i)) = Ok v.
Proof.
  intros Hrep Hwf Hi. unfold enum_array.get_key.
  rewrite subscript_key_as_position. simpl.
  rewrite (to_size_t_enum ity) by (done || lia).
  by apply get_lookup.
Qed.

(** Forward traversal reads the storage in position order. *)
Lemma for_elements_all a (fuel : nat) :
  enum_array.well_formed ArraySize a ->
  (length (enum_array.m_elements a) < fuel)%nat ->
  enum_array.for_elements ArraySize fuel a = Some (enum_array.m_elements a, Ok tt).
Proof.
  intros Hwf Hfuel. unfold enum_array.well_formed in Hwf.
  unfold enum_array.for_elements, enum_array.begin, enum_array.end_.
  apply (iterate_finished _ _ _ _ _ Z.of_nat); [| |done].
  2: { rewrite Hwf. unfold enum_array.pointer_ne. by rewrite Z.eqb_refl. }
  intros i v Hi. apply lookup_lt_Some in Hi as Hlt.
  unfold enum_array.pointer_ne, enum_array.pointer_next. repeat split.
  - apply negb_true_iff, Z.eqb_neq. lia.
  - by apply load_lookup.
  - replace (0 <=? Z.of_nat i) with true by (symmetry; apply Z.leb_le; lia).
    replace (Z.of_nat i <? Z.of_nat (length (enum_array.m_elements a))) with true
      by (symmetry; apply Z.ltb_lt; lia).
    simpl. f_equal. lia.
Qed.

(** Reverse traversal reads it in the opposite order. *)
Lemma for_elements_reversed_all a (fuel : nat) :
  enum_array.well_formed ArraySize a ->
  (length (enum_array.m_elements a) < fuel)%nat ->
  enum_array.for_elements_reversed ArraySize fuel a =
  Some (reverse (enum_array.m_elements a), Ok tt).
Proof.
  intros Hwf Hfuel. unfold enum_array.well_formed in Hwf.
  unfold enum_array.for_elements_reversed, enum_array.rbegin, enum_array.rend,
    enum_array.begin, enum_array.end_.
  set (l := enum_array.m_elements a) in *.
  set (pos := fun i : nat => enum_array.mk_reverse (enum_array.size ArraySize - Z.of_nat i)).
  replace (enum_array.mk_reverse (enum_array.size ArraySize)) with (pos 0%nat)
    by (unfold pos; f_equal; lia).
  apply iterate_finished.
  - intros i v Hi. apply lookup_lt_Some in Hi as Hlt. rewrite length_reverse in Hlt.
    rewrite reverse_lookup in Hi by done.
    unfold enum_array.reverse_ne, enum_array.pointer_ne, enum_array.reverse_deref,
      enum_array.reverse_next, enum_array.pointer_prev, pos; simpl. fold l.
    replace ((0 <? enum_array.size ArraySize - Z.of_nat i) &&
             (enum_array.size ArraySize - Z.of_nat i <=? Z.of_nat (length l)))
      with true by (symmetry; apply andb_true_iff; lia).
    simpl. repeat split.
    + apply negb_true_iff, Z.eqb_neq. lia.
    + replace (enum_array.size ArraySize - Z.of_nat i - 1)
        with (Z.of_nat (length l - S i)) by lia.
      by apply load_lookup.
    + do 2 f_equal. lia.
  - rewrite length_reverse.
    unfold enum_array.reverse_ne, enum_array.pointer_ne, pos; simpl.
    apply negb_false_iff, Z.eqb_eq. lia.
  - by rewrite length_reverse.
Qed.

Lemma store_in_range a (i : nat) v :
  (i < length (enum_array.m_elements a))%nat ->
  enum_array.store a (Z.of_nat i) v = Ok (enum_array.mk (<[i := v]> (enum_array.m_elements a))).
Proof.
  intros Hi. unfold enum_array.store.
  replace ((0 <=? Z.of_nat i) && (Z.of_nat i <? Z.of_nat (length (enum_array.m_elements a))))
    with true by (symmetry; apply andb_true_iff; lia).
  by rewrite Nat2Z.id.
Qed.
End enum_array_facts.

(** * The usage sample *)

(** The assertions and loops of [enum_helpers_sample], with [Foo] over
    [int]. *)
Example usage_sample :
  let iter := enum_iterator.default in
  let FooStrings := enum_array.mk ["Bar"; "Baz"; "Fooz"]%string in
  enum_iterator.range_for Int32 Foo.Count 1 4 iter =
    Some ([Foo.Bar; Foo.Baz; Foo.Fooz], Ok tt) /\
  enum_iterator.eq (enum_iterator.begin iter) (enum_iterator.begin iter) = true /\
  ('(r, _) ← enum_iterator.post_increment Int32 1 (enum_iterator.begin iter);
   enum_iterator.deref Foo.Count r) = Ok Foo.Bar /\
  ('(r, _) ← enum_iterator.pre_increment Int32 1 (enum_iterator.begin iter);
   enum_iterator.deref Foo.Count r) = Ok Foo.Baz /\
  enum_array.for_keys Int32 Foo.Count 4 = Some ([Foo.Bar; Foo.Baz; Foo.Fooz], Ok tt) /\
  enum_array.for_elements Foo.Count 4 FooStrings =
    Some (["Bar"; "Baz"; "Fooz"]%string, Ok tt) /\
  enum_array.for_elements_reversed Foo.Count 4 FooStrings =
    Some (["Fooz"; "Baz"; "Bar"]%string, Ok tt) /\
  enum_array.get_key Foo.Count FooStrings Foo.Bar = Ok "Bar"%string /\
  enum_array.get_key Foo.Count FooStrings Foo.Baz = Ok "Baz"%string /\
  enum_array.get_key Foo.Count FooStrings Foo.Fooz = Ok "Fooz"%string.
Proof. repeat split. Qed.

(** * Properties of [enum_iterator] *)

(** C1. With step 1 and a terminal value [N >= 0] of the underlying type, the
    loop from [begin()] to [end()] comes to its end having read exactly the
    [N] values [0, 1, ..., N-1] as enumeration values, in strictly ascending
    order; [N] itself is not among them. *)
Theorem unit_step_yields_all_constants (ity : integer_type) (Last : EnumType)
    (iter : enum_iterator.t) (fuel : nat) :
  0 <= to_integer Last ->
  representable ity (to_integer Last) ->
  (Z.to_nat (to_integer Last) < fuel)%nat ->
  exists vs : list EnumType,
    enum_iterator.range_for ity Last 1 fuel iter = Some (vs, Ok tt) /\
    vs = to_enum <$> seqZ 0 (to_integer Last) /\
    Z.of_nat (length vs) = to_integer Last /\
    (forall (i j : nat) (a b : EnumType), (i < j)%nat ->
       vs !! i = Some a -> vs !! j = Some b -> to_integer a < to_integer b) /\
    Last ∉ vs.
Proof.
  intros HN Hrep Hfuel.
  exists (to_enum <$> seqZ 0 (to_integer Last)). repeat split.
  - by apply range_for_unit_step.
  - rewrite length_fmap, length_seqZ. lia.
  - intros i j a b Hij Ha Hb.
    rewrite list_lookup_fmap, fmap_Some in Ha, Hb.
    destruct Ha as (x & Hx & ->), Hb as (y & Hy & ->).
    apply lookup_seqZ in Hx as [-> _], Hy as [-> _]. simpl. lia.
  - intros Hin. apply list_elem_of_fmap in Hin as (z & -> & Hz).
    apply list_elem_of_lookup in Hz as [i Hi].
    apply lookup_seqZ in Hi as [-> Hlt]. simpl in Hlt. lia.
Qed.

Lemma unit_step_yields_all_constants_witness :
  exists vs : list EnumType,
    enum_iterator.range_for Int32 Foo.Count 1 4 enum_iterator.default = Some (vs, Ok tt) /\
    vs = to_enum <$> seqZ 0 3 /\
    Z.of_nat (length vs) = 3 /\
    (forall (i j : nat) (a b : EnumType), (i < j)%nat ->
       vs !! i = Some a -> vs !! j = Some b -> to_integer a < to_integer b) /\
    Foo.Count ∉ vs.
Proof.
  apply (unit_step_yields_all_constants Int32 Foo.Count enum_iterator.default 4).
  - simpl. lia.
  - vm_compute. split; discriminate.
  - vm_compute. lia.
Defined.

(** C3, as the code has it. For a step [S > 1] and a terminal value
    [N >= 0]: when [S] divides [N] the loop from [begin()] to [end()] comes
    to its end having read exactly the multiples [0, S, 2S, ...] of [S]
    below [N]; when [S] does not divide [N] the position steps over [end()]
    and, those same values read, the next dereference is a contract
    violation. No value read is [N] or above. *)
Theorem stepped_iteration (ity : integer_type) (Last : EnumType) (Step : Z)
    (iter : enum_iterator.t) (fuel : nat) :
  1 < Step <= max_value UInt32 ->
  0 <= to_integer Last ->
  representable ity (to_integer Last) ->
  (Z.to_nat ((to_integer Last + Step - 1) / Step) < fuel)%nat ->
  ((Step | to_integer Last) ->
     enum_iterator.range_for ity Last Step fuel iter =
     Some (to_enum <$> multiples_below Step (to_integer Last), Ok tt)) /\
  (~ (Step | to_integer Last) -> to_integer Last + Step <= max_value ity ->
     enum_iterator.range_for ity Last Step fuel iter =
     Some (to_enum <$> multiples_below Step (to_integer Last), ContractViolation)) /\
  (forall z : Z, z ∈ multiples_below Step (to_integer Last) <->
     (exists k : Z, 0 <= k /\ z = k * Step) /\ z < to_integer Last).
Proof.
  intros [HS _] HN [_ Hmax] Hfuel.
  destruct (ceil_div_bounds Step (to_integer Last) ltac:(lia) HN) as (Hk0 & Hk).
  split; [|split].
  - intros [q Hq].
    assert (Hend : (to_integer Last + Step - 1) / Step * Step = to_integer Last).
    { set (rounds := (to_integer Last + Step - 1) / Step) in *.
      assert (rounds - 1 < q) by (apply (Z.mul_lt_mono_pos_r Step); lia).
      assert (q <= rounds) by (apply (Z.mul_le_mono_pos_r _ _ Step); lia).
      replace rounds with q by lia. lia. }
    rewrite range_for_outcome; try lia.
    by rewrite Hend, Z.eqb_refl.
  - intros Hndiv Hroom.
    assert (Hend : (to_integer Last + Step - 1) / Step * Step <> to_integer Last).
    { intros Heq. apply Hndiv. eexists. symmetry. exact Heq. }
    rewrite range_for_outcome; try lia.
    apply Z.eqb_neq in Hend. by rewrite Hend.
  - intros z. apply elem_of_multiples_below; lia.
Qed.

Lemma stepped_iteration_witness :
  enum_iterator.range_for Int32 (to_enum 6) 2 4 enum_iterator.default =
  Some (to_enum <$> multiples_below 2 6, Ok tt) /\
  enum_iterator.range_for Int32 (to_enum 5) 2 4 enum_iterator.default =
  Some (to_enum <$> multiples_below 2 5, ContractViolation).
Proof.
  split.
  - apply (stepped_iteration Int32 (to_enum 6) 2 enum_iterator.default 4).
    + vm_compute. split; [reflexivity | discriminate].
    + simpl. lia.
    + vm_compute. split; discriminate.
    + vm_compute. lia.
    + exists 3. reflexivity.
  - apply (stepped_iteration Int32 (to_enum 5) 2 enum_iterator.default 4).
    + vm_compute. split; [reflexivity | discriminate].
    + simpl. lia.
    + vm_compute. split; discriminate.
    + vm_compute. lia.
    + intros [q Hq]. simpl in Hq. lia.
    + vm_compute. discriminate.
Defined.

(** C3 as stated fails: with terminal value 3 and step 2 the position goes
    0, 2, 4 and never equals [end()]; no amount of fuel lets the loop come
    to its end, it stops in the assertion of the third dereference. *)
Lemma step_two_steps_over_count_three :
  (forall (fuel : nat) (vs : list EnumType),
     enum_iterator.range_for Int32 Foo.Count 2 fuel enum_iterator.default
     <> Some (vs, Ok tt)) /\
  enum_iterator.range_for Int32 Foo.Count 2 3 enum_iterator.default =
  Some ([to_enum 0; to_enum 2], ContractViolation).
Proof.
  split; [|reflexivity].
  intros fuel vs H.
  destruct fuel as [|[|[|fuel]]]; vm_compute in H; discriminate.
Qed.

(** C4, as the code has it. The position of an iterator is not confined to
    [[0, Last)]: [end()] sits at [Last] itself. For a step [S >= 1] that
    divides a terminal value [N >= 0], what the default constructor and
    [begin()] establish, and what [end()], copy and the increment of an
    iterator that differs from [end()] preserve, is that the position is a
    multiple of [S] in the closed range [[0, N]]; the constructor from a
    value takes the position from its argument. Among such iterators the
    position is in [[0, N)] exactly for those that differ from [end()]. *)
Theorem position_stays_up_to_terminal (ity : integer_type) (Last : EnumType) (Step : Z) :
  0 < Step ->
  0 <= to_integer Last ->
  representable ity (to_integer Last) ->
  (Step | to_integer Last) ->
  position_up_to_terminal Last Step enum_iterator.default /\
  (forall it, position_up_to_terminal Last Step (enum_iterator.begin it)) /\
  (forall it, position_up_to_terminal Last Step (enum_iterator.end_ Last it) /\
              enum_iterator.m_current (enum_iterator.end_ Last it) = to_integer Last) /\
  (forall index, enum_iterator.m_current (enum_iterator.from_index index) = to_integer index) /\
  (forall it, position_up_to_terminal Last Step it ->
              position_up_to_terminal Last Step (enum_iterator.copy it)) /\
  (forall it, position_up_to_terminal Last Step it ->
              enum_iterator.ne it (enum_iterator.end_ Last it) = true ->
              exists it', enum_iterator.pre_increment ity Step it = Ok (it', it') /\
                          position_up_to_terminal Last Step it') /\
  (forall it, position_up_to_terminal Last Step it ->
              enum_iterator.ne it (enum_iterator.end_ Last it) = true ->
              exists it', enum_iterator.post_increment ity Step it =
                          Ok (enum_iterator.copy it, it') /\
                          position_up_to_terminal Last Step it') /\
  (forall it, position_up_to_terminal Last Step it ->
              (position_below_terminal Last it <->
               enum_iterator.ne it (enum_iterator.end_ Last it) = true)).
Proof.
  intros HS HN [_ Hmax] Hdiv.
  pose proof (min_value_le_0 ity) as Hmin.
  assert (Hnext : forall it, position_up_to_terminal Last Step it ->
            enum_iterator.ne it (enum_iterator.end_ Last it) = true ->
            enum_iterator.add_assign ity Step (enum_iterator.m_current it) =
              Ok (enum_iterator.m_current it + Step) /\
            position_up_to_terminal Last Step
              (enum_iterator.mk (enum_iterator.m_current it + Step))).
  { intros [p] [[Hp0 HpN] [a Ha]] Hne. simpl in *.
    unfold enum_iterator.ne in Hne; simpl in Hne.
    apply negb_true_iff, Z.eqb_neq in Hne.
    destruct Hdiv as [b Hb].
    assert (a < b) by (apply (Z.mul_lt_mono_pos_r Step); lia).
    assert (p + Step <= to_integer Last) by nia.
    split.
    - apply add_assign_exact. unfold representable. lia.
    - split; simpl; [lia|]. exists (a + 1). lia. }
  assert (Hzero : position_up_to_terminal Last Step (enum_iterator.mk 0))
    by (split; simpl; [lia | apply Z.divide_0_r]).
  assert (Hend : position_up_to_terminal Last Step (enum_iterator.mk (to_integer Last)))
    by (split; simpl; [lia | done]).
  split; [exact Hzero|].
  split; [intros ?; exact Hzero|].
  split; [intros ?; split; [exact Hend | done]|].
  split; [done|].
  split; [by intros [p]|].
  split; [|split].
  - intros it Hit Hne. destruct (Hnext it Hit Hne) as [Hadd Hpos].
    exists (enum_iterator.mk (enum_iterator.m_current it + Step)).
    unfold enum_iterator.pre_increment. rewrite Hadd. done.
  - intros it Hit Hne. destruct (Hnext it Hit Hne) as [Hadd Hpos].
    exists (enum_iterator.mk (enum_iterator.m_current it + Step)).
    unfold enum_iterator.post_increment. rewrite Hadd. done.
  - intros [p] [[Hp0 HpN] _]. unfold position_below_terminal, enum_iterator.ne; simpl in *.
    rewrite negb_true_iff, Z.eqb_neq. lia.
Qed.

Lemma position_stays_up_to_terminal_witness :
  exists it', enum_iterator.pre_increment Int32 1 (enum_iterator.mk 2) = Ok (it', it') /\
              position_up_to_terminal Foo.Count 1 it'.
Proof.
  assert (H0 : 0 < 1) by lia.
  assert (H1 : 0 <= to_integer Foo.Count) by (simpl; lia).
  assert (H2 : representable Int32 (to_integer Foo.Count))
    by (vm_compute; split; discriminate).
  assert (H3 : (1 | to_integer Foo.Count)) by (exists 3; reflexivity).
  destruct (position_stays_up_to_terminal Int32 Foo.Count 1 H0 H1 H2 H3)
    as (_ & _ & _ & _ & _ & Hpre & _).
  apply Hpre.
  - split; simpl; [lia | exists 2; reflexivity].
  - reflexivity.
Defined.

(** C4 as stated fails: [end()] is an iterator whose position is the
    terminal value, and incrementing the iterator on the last constant
    produces that position too. *)
Lemma end_position_is_not_below_terminal :
  ~ position_below_terminal Foo.Count (enum_iterator.end_ Foo.Count enum_iterator.default) /\
  position_below_terminal Foo.Count (enum_iterator.mk 2) /\
  enum_iterator.pre_increment Int32 1 (enum_iterator.mk 2) =
    Ok (enum_iterator.mk 3, enum_iterator.mk 3) /\
  ~ position_below_terminal Foo.Count (enum_iterator.mk 3).
Proof.
  unfold position_below_terminal; simpl. repeat split; try lia; reflexivity.
Qed.

(** C6, as the code has it. When [p + Step] is representable in the
    underlying type, pre-increment returns an iterator at the new position
    [p + Step], post-increment returns an iterator at the old position [p],
    and both leave the receiver at [p + Step]. *)
Theorem increment_without_overflow (ity : integer_type) (Step : Z) (it : enum_iterator.t) :
  representable ity (enum_iterator.m_current it + Step) ->
  (exists r it', enum_iterator.pre_increment ity Step it = Ok (r, it') /\
     enum_iterator.m_current r = enum_iterator.m_current it + Step /\
     enum_iterator.m_current it' = enum_iterator.m_current it + Step) /\
  (exists r it', enum_iterator.post_increment ity Step it = Ok (r, it') /\
     enum_iterator.m_current r = enum_iterator.m_current it /\
     enum_iterator.m_current it' = enum_iterator.m_current it + Step).
Proof.
  intros Hr. unfold enum_iterator.pre_increment, enum_iterator.post_increment.
  rewrite (add_assign_exact _ _ _ Hr). simpl. split; eauto 6.
Qed.

Lemma increment_without_overflow_witness :
  (exists r it', enum_iterator.pre_increment Int32 1 (enum_iterator.mk 0) = Ok (r, it') /\
     enum_iterator.m_current r = 0 + 1 /\ enum_iterator.m_current it' = 0 + 1) /\
  (exists r it', enum_iterator.post_increment Int32 1 (enum_iterator.mk 0) = Ok (r, it') /\
     enum_iterator.m_current r = 0 /\ enum_iterator.m_current it' = 0 + 1).
Proof.
  apply (increment_without_overflow Int32 1 (enum_iterator.mk 0)).
  vm_compute. split; discriminate.
Defined.

(** C6 as stated fails at the edge of the underlying type: on a 32-bit
    [int] the increment of the position [2147483647] by 1 yields
    [-2147483648]; on an 8-bit unsigned type a step of 256 leaves the
    position where it was. *)
Lemma increment_wraps_around :
  enum_iterator.pre_increment Int32 1 (enum_iterator.mk 2147483647) =
    Ok (enum_iterator.mk (-2147483648), enum_iterator.mk (-2147483648)) /\
  enum_iterator.post_increment Int32 1 (enum_iterator.mk 2147483647) =
    Ok (enum_iterator.mk 2147483647, enum_iterator.mk (-2147483648)) /\
  -2147483648 <> 2147483647 + 1 /\
  enum_iterator.pre_increment UInt8 256 (enum_iterator.mk 5) =
    Ok (enum_iterator.mk 5, enum_iterator.mk 5).
Proof. repeat split; (reflexivity || discriminate). Qed.

(** Whatever the position, an increment that is defined moves it by
    [Step] modulo [2 ^ bits]; pre-increment returns the receiver's new
    state and post-increment a copy of the old one. *)
Lemma increment_modular (ity : integer_type) (Step : Z) (it r it' : enum_iterator.t) :
  (enum_iterator.pre_increment ity Step it = Ok (r, it') -> r = it') /\
  (enum_iterator.post_increment ity Step it = Ok (r, it') -> r = enum_iterator.copy it) /\
  (enum_iterator.pre_increment ity Step it = Ok (r, it') \/
   enum_iterator.post_increment ity Step it = Ok (r, it') ->
   representable ity (enum_iterator.m_current it') /\
   exists k, enum_iterator.m_current it' =
             enum_iterator.m_current it + Step + k * 2 ^ bits ity).
Proof.
  unfold enum_iterator.pre_increment, enum_iterator.post_increment.
  destruct (enum_iterator.add_assign ity Step (enum_iterator.m_current it)) as [m| |] eqn:Hadd;
    cbn; [|by intuition discriminate..].
  split; [|split].
  - intros H. by injection H as <- <-.
  - intros H. by injection H as <- _.
  - intros H. assert (it' = enum_iterator.mk m) as ->
      by (destruct H as [H|H]; by injection H as _ <-).
    simpl. eauto using add_assign_in_range, add_assign_congruent.
Qed.

(** C7. Dereference ends in the contract violation exactly when the position
    is at or beyond the terminal value, and returns the enumeration value at
    the current position exactly when the position is below it. *)
Theorem deref_contract (Last : EnumType) (it : enum_iterator.t) :
  (enum_iterator.deref Last it = ContractViolation <->
   to_integer Last <= enum_iterator.m_current it) /\
  (enum_iterator.deref Last it = Ok (to_enum (enum_iterator.m_current it)) <->
   enum_iterator.m_current it < to_integer Last).
Proof.
  unfold enum_iterator.deref.
  destruct (Z.ltb_spec (enum_iterator.m_current it) (to_integer Last)); simpl;
    split; split; intros; (done || lia).
Qed.

(** * Properties of [enum_array] *)

(** C2. An array of length [N] built from the list [[v0, ..., v(N-1)]] gives
    [vk] at every position [k] of [[0, N)], by position and by the
    enumeration constant [k]; and access by an enumeration value is access
    at the position that value converts to. *)
Theorem aggregate_then_access {DataType : Type} (ity : integer_type) (ArraySize : EnumType)
    (value_init : DataType) (vs : list DataType) :
  0 <= to_integer ArraySize ->
  representable ity (to_integer ArraySize) ->
  Z.of_nat (length vs) = to_integer ArraySize ->
  exists a : enum_array.t DataType,
    enum_array.aggregate_init ArraySize value_init vs = Some a /\
    enum_array.well_formed ArraySize a /\
    (forall k : Z, 0 <= k < to_integer ArraySize ->
       exists v, vs !! Z.to_nat k = Some v /\
                 enum_array.get ArraySize a k = Ok v /\
                 enum_array.get_key ArraySize a (to_enum k) = Ok v) /\
    (forall key : EnumType,
       enum_array.get_key ArraySize a key =
       enum_array.get ArraySize a (to_size_t (to_integer key))) /\
    (forall key : EnumType, 0 <= to_integer key -> representable ity (to_integer key) ->
       enum_array.get_key ArraySize a key = enum_array.get ArraySize a (to_integer key)).
Proof.
  intros HN Hrep Hlen.
  assert (Hsize : enum_array.size ArraySize = to_integer ArraySize)
    by (eapply to_size_t_enum; eauto).
  assert (Hwf : enum_array.well_formed ArraySize (enum_array.mk vs))
    by (unfold enum_array.well_formed; simpl; lia).
  exists (enum_array.mk vs).
  split; [apply aggregate_init_exact; lia|].
  split; [done|].
  split; [|split].
  - intros k Hk.
    destruct (lookup_lt_is_Some_2 vs (Z.to_nat k) ltac:(lia)) as [v Hv].
    exists v. split; [done|].
    rewrite <- (Z2Nat.id k) by lia. split.
    + by apply get_lookup.
    + apply (get_key_lookup _ ity); [|done..].
      destruct Hrep. pose proof (min_value_le_0 ity). unfold representable. lia.
  - done.
  - intros key Hkey Hkrep. unfold enum_array.get_key.
    rewrite subscript_key_as_position. by rewrite (to_size_t_enum ity).
Qed.

Lemma aggregate_then_access_witness :
  exists a : enum_array.t Z,
    enum_array.aggregate_init Foo.Count 0 [10; 20; 30] = Some a /\
    enum_array.well_formed Foo.Count a /\
    (forall k : Z, 0 <= k < 3 ->
       exists v, [10; 20; 30] !! Z.to_nat k = Some v /\
                 enum_array.get Foo.Count a k = Ok v /\
                 enum_array.get_key Foo.Count a (to_enum k) = Ok v) /\
    (forall key : EnumType,
       enum_array.get_key Foo.Count a key =
       enum_array.get Foo.Count a (to_size_t (to_integer key))) /\
    (forall key : EnumType, 0 <= to_integer key -> representable Int32 (to_integer key) ->
       enum_array.get_key Foo.Count a key = enum_array.get Foo.Count a (to_integer key)).
Proof.
  apply (aggregate_then_access Int32 Foo.Count 0 [10; 20; 30]).
  - simpl. lia.
  - vm_compute. split; discriminate.
  - reflexivity.
Defined.

(** C5. For an array of length [N], [keys()] runs through exactly [N]
    enumeration values, in the order of the positions, and pairing the [i]-th
    key with the [i]-th element gives back the construction list with each
    value next to its enumeration constant. *)
Theorem keys_pair_with_elements {DataType : Type} (ity : integer_type) (ArraySize : EnumType)
    (value_init : DataType) (vs : list DataType) (fuel : nat) :
  0 <= to_integer ArraySize ->
  representable ity (to_integer ArraySize) ->
  Z.of_nat (length vs) = to_integer ArraySize ->
  (Z.to_nat (to_integer ArraySize) < fuel)%nat ->
  exists (a : enum_array.t DataType) (ks : list EnumType) (es : list DataType),
    enum_array.aggregate_init ArraySize value_init vs = Some a /\
    enum_array.for_keys ity ArraySize fuel = Some (ks, Ok tt) /\
    enum_array.for_elements ArraySize fuel a = Some (es, Ok tt) /\
    Z.of_nat (length ks) = to_integer ArraySize /\
    zip ks es = imap (fun i v => (to_enum (Z.of_nat i), v)) vs /\
    (forall (i : nat) (k : EnumType), ks !! i = Some k ->
       exists v, vs !! i = Some v /\
                 enum_array.get ArraySize a (Z.of_nat i) = Ok v /\
                 enum_array.get_key ArraySize a k = Ok v).
Proof.
  intros HN Hrep Hlen Hfuel.
  assert (Hsize : enum_array.size ArraySize = to_integer ArraySize)
    by (eapply to_size_t_enum; eauto).
  assert (Hwf : enum_array.well_formed ArraySize (enum_array.mk vs))
    by (unfold enum_array.well_formed; simpl; lia).
  exists (enum_array.mk vs), (to_enum <$> seqZ 0 (to_integer ArraySize)), vs.
  split; [apply aggregate_init_exact; lia|].
  split; [by apply range_for_unit_step|].
  split; [apply for_elements_all; [done | simpl; lia]|].
  split; [rewrite length_fmap, length_seqZ; lia|].
  split.
  - apply list_eq. intros i.
    rewrite lookup_zip_with, list_lookup_imap, list_lookup_fmap.
    destruct (vs !! i) as [v|] eqn:Hv.
    + apply lookup_lt_Some in Hv as Hlt.
      rewrite lookup_seqZ_lt by lia. done.
    + apply lookup_ge_None in Hv.
      rewrite lookup_seqZ_ge by lia. done.
  - intros i k Hk.
    rewrite list_lookup_fmap, fmap_Some in Hk. destruct Hk as (z & Hz & ->).
    apply lookup_seqZ in Hz as [-> Hlt]. simpl in *.
    destruct (lookup_lt_is_Some_2 vs i ltac:(lia)) as [v Hv].
    exists v. split; [done|]. split.
    + by apply get_lookup.
    + apply (get_key_lookup _ ity); [|done..].
      destruct Hrep. pose proof (min_value_le_0 ity). unfold representable. lia.
Qed.

Lemma keys_pair_with_elements_witness :
  exists (a : enum_array.t Z) (ks : list EnumType) (es : list Z),
    enum_array.aggregate_init Foo.Count 0 [10; 20; 30] = Some a /\
    enum_array.for_keys Int32 Foo.Count 4 = Some (ks, Ok tt) /\
    enum_array.for_elements Foo.Count 4 a = Some (es, Ok tt) /\
    Z.of_nat (length ks) = 3 /\
    zip ks es = imap (fun i v => (to_enum (Z.of_nat i), v)) [10; 20; 30] /\
    (forall (i : nat) (k : EnumType), ks !! i = Some k ->
       exists v, [10; 20; 30] !! i = Some v /\
                 enum_array.get Foo.Count a (Z.of_nat i) = Ok v /\
                 enum_array.get_key Foo.Count a k = Ok v).
Proof.
  apply (keys_pair_with_elements Int32 Foo.Count 0 [10; 20; 30] 4).
  - simpl. lia.
  - vm_compute. split; discriminate.
  - reflexivity.
  - vm_compute. lia.
Defined.

(** C8. On an array of length [N], access at a position [>= N], or by an
    enumeration value whose integer is outside [[0, N)], ends in the
    contract violation, for reads and for writes; an access that succeeds
    has used exactly the slot at the index it was given. *)
Theorem out_of_range_access_is_contract_violation {DataType : Type} (ity : integer_type)
    (ArraySize : EnumType) (a : enum_array.t DataType) (v : DataType) :
  0 <= to_integer ArraySize ->
  representable ity (to_integer ArraySize) ->
  (forall index : Z, to_integer ArraySize <= index ->
     enum_array.get ArraySize a index = ContractViolation /\
     enum_array.set ArraySize a index v = ContractViolation) /\
  (forall key : EnumType, representable ity (to_integer key) ->
     to_integer ArraySize <= to_integer key \/ to_integer key < 0 ->
     enum_array.get_key ArraySize a key = ContractViolation /\
     enum_array.set_key ArraySize a key v = ContractViolation) /\
  (forall (index : Z) (w : DataType), enum_array.get ArraySize a index = Ok w ->
     0 <= index < to_integer ArraySize /\
     enum_array.m_elements a !! Z.to_nat index = Some w).
Proof.
  intros HN Hrep.
  assert (Hsize : enum_array.size ArraySize = to_integer ArraySize)
    by (eapply to_size_t_enum; eauto).
  split; [|split].
  - intros index Hi. unfold enum_array.get, enum_array.set.
    rewrite subscript_out_of_range by lia. done.
  - intros key Hkrep Hout.
    unfold enum_array.get_key, enum_array.set_key.
    rewrite subscript_key_as_position, subscript_out_of_range; [done|].
    rewrite Hsize. destruct Hout as [Hge | Hneg].
    + rewrite (to_size_t_enum ity) by (done || lia). done.
    + destruct (convert_congruent UInt64 (to_integer key)) as [k Hk].
      pose proof (convert_in_range UInt64 (to_integer key)) as [Hlo _].
      fold (to_size_t (to_integer key)) in Hk, Hlo.
      change (min_value UInt64) with 0 in Hlo. change (bits UInt64) with 64 in Hk.
      unfold representable, min_value, max_value in Hrep, Hkrep.
      destruct ity; simpl in Hrep, Hkrep; lia.
  - intros index w Hget. unfold enum_array.get, enum_array.subscript in Hget.
    destruct (Z.ltb_spec index (enum_array.size ArraySize)); simpl in Hget; [|done].
    unfold enum_array.load in Hget.
    destruct (Z.leb_spec 0 index); [|done].
    destruct (enum_array.m_elements a !! Z.to_nat index); [|done].
    injection Hget as ->. split; [lia | done].
Qed.

Lemma out_of_range_access_is_contract_violation_witness :
  let a := enum_array.mk [10; 20; 30] in
  (enum_array.get Foo.Count a 3 = ContractViolation /\
   enum_array.set Foo.Count a 3 7 = ContractViolation) /\
  (enum_array.get_key Foo.Count a Foo.Count = ContractViolation /\
   enum_array.set_key Foo.Count a Foo.Count 7 = ContractViolation) /\
  (enum_array.get_key Foo.Count a (to_enum (-1)) = ContractViolation /\
   enum_array.set_key Foo.Count a (to_enum (-1)) 7 = ContractViolation).
Proof.
  intros a.
  assert (H0 : 0 <= to_integer Foo.Count) by (simpl; lia).
  assert (H1 : representable Int32 (to_integer Foo.Count))
    by (vm_compute; split; discriminate).
  destruct (out_of_range_access_is_contract_violation Int32 Foo.Count a 7 H0 H1)
    as (Hpos & Hkey & _).
  split; [|split].
  - apply Hpos. simpl. lia.
  - apply Hkey; [vm_compute; split; discriminate | left; simpl; lia].
  - apply Hkey; [vm_compute; split; discriminate | right; simpl; lia].
Defined.

(** C9. Reverse traversal from [rbegin()] to [rend()] reads the elements in
    exactly the reverse of the order of the traversal from [begin()] to
    [end()], and reversing what it read gives the forward sequence back. *)
Theorem reverse_traversal_reverses {DataType : Type} (ArraySize : EnumType)
    (a : enum_array.t DataType) (fuel : nat) :
  enum_array.well_formed ArraySize a ->
  (length (enum_array.m_elements a) < fuel)%nat ->
  exists forward backward : list DataType,
    enum_array.for_elements ArraySize fuel a = Some (forward, Ok tt) /\
    enum_array.for_elements_reversed ArraySize fuel a = Some (backward, Ok tt) /\
    forward = enum_array.m_elements a /\
    backward = reverse forward /\
    reverse backward = forward /\
    (forall i : nat, (i < length forward)%nat ->
       backward !! i = forward !! (length forward - S i)%nat).
Proof.
  intros Hwf Hfuel.
  exists (enum_array.m_elements a), (reverse (enum_array.m_elements a)).
  split; [by apply for_elements_all|].
  split; [by apply for_elements_reversed_all|].
  split; [done|]. split; [done|].
  split; [apply reverse_involutive|].
  intros i Hi. by apply reverse_lookup.
Qed.

Lemma reverse_traversal_reverses_witness :
  exists forward backward : list Z,
    enum_array.for_elements Foo.Count 4 (enum_array.mk [10; 20; 30]) = Some (forward, Ok tt) /\
    enum_array.for_elements_reversed Foo.Count 4 (enum_array.mk [10; 20; 30]) =
      Some (backward, Ok tt) /\
    forward = [10; 20; 30] /\
    backward = reverse forward /\
    reverse backward = forward /\
    (forall i : nat, (i < length forward)%nat ->
       backward !! i = forward !! (length forward - S i)%nat).
Proof.
  apply (reverse_traversal_reverses Foo.Count (enum_array.mk [10; 20; 30]) 4).
  - reflexivity.
  - simpl. lia.
Defined.

(** C10. A write through the checked accessor at an in-range index [k],
    given as a position or as the enumeration value that converts to it,
    puts the value in slot [k] and leaves every other slot, the length of
    the storage and [size()] as they were. *)
Theorem write_changes_one_slot {DataType : Type} (ArraySize : EnumType)
    (a : enum_array.t DataType) (k : Z) (v : DataType) :
  enum_array.well_formed ArraySize a ->
  0 <= k < enum_array.size ArraySize ->
  exists a' : enum_array.t DataType,
    enum_array.set ArraySize a k v = Ok a' /\
    (forall key : EnumType, to_size_t (to_integer key) = k ->
       enum_array.set_key ArraySize a key v = Ok a') /\
    enum_array.m_elements a' !! Z.to_nat k = Some v /\
    (forall j : nat, j <> Z.to_nat k ->
       enum_array.m_elements a' !! j = enum_array.m_elements a !! j) /\
    length (enum_array.m_elements a') = length (enum_array.m_elements a) /\
    enum_array.well_formed ArraySize a'.
Proof.
  intros Hwf Hk. unfold enum_array.well_formed in Hwf.
  exists (enum_array.mk (<[Z.to_nat k := v]> (enum_array.m_elements a))).
  assert (Hset : enum_array.set ArraySize a k v =
                 Ok (enum_array.mk (<[Z.to_nat k := v]> (enum_array.m_elements a)))).
  { unfold enum_array.set. rewrite subscript_in_range by lia. simpl.
    rewrite <- (Z2Nat.id k) at 1 by lia. apply store_in_range. lia. }
  split; [exact Hset|].
  split.
  { intros key Hkey. unfold enum_array.set_key.
    rewrite subscript_key_as_position, Hkey. exact Hset. }
  simpl. split; [apply list_lookup_insert_eq; lia|].
  split; [intros j Hj; by apply list_lookup_insert_ne|].
  split; [apply length_insert|].
  unfold enum_array.well_formed; simpl. by rewrite length_insert.
Qed.

Lemma write_changes_one_slot_witness :
  exists a' : enum_array.t Z,
    enum_array.set Foo.Count (enum_array.mk [10; 20; 30]) 1 7 = Ok a' /\
    (forall key : EnumType, to_size_t (to_integer key) = 1 ->
       enum_array.set_key Foo.Count (enum_array.mk [10; 20; 30]) key 7 = Ok a') /\
    enum_array.m_elements a' !! Z.to_nat 1 = Some 7 /\
    (forall j : nat, j <> Z.to_nat 1 ->
       enum_array.m_elements a' !! j = enum_array.m_elements (enum_array.mk [10; 20; 30]) !! j) /\
    length (enum_array.m_elements a') = length (enum_array.m_elements (enum_array.mk [10; 20; 30])) /\
    enum_array.well_formed Foo.Count a'.
Proof.
  apply (write_changes_one_slot Foo.Count (enum_array.mk [10; 20; 30]) 1 7).
  - reflexivity.
  - vm_compute. split; [discriminate | reflexivity].
Defined.

(** * Further properties of [enum_iterator] *)

(** X1. The six comparison operators are one order on positions: [!=] is the
    negation of [==], [>] is [<] with the operands swapped, [<=] and [>=]
    are the negations of [>] and [<]; exactly one of [a < b], [a == b],
    [a > b] holds; [==] holds exactly for iterators at the same position;
    [<] is transitive. *)
Theorem comparison_operators_consistent (a b c : enum_iterator.t) :
  enum_iterator.ne a b = negb (enum_iterator.eq a b) /\
  enum_iterator.gt a b = enum_iterator.lt b a /\
  enum_iterator.le a b = negb (enum_iterator.gt a b) /\
  enum_iterator.ge a b = negb (enum_iterator.lt a b) /\
  (enum_iterator.eq a b = true <-> a = b) /\
  (enum_iterator.lt a b = true /\ enum_iterator.eq a b = false /\ enum_iterator.gt a b = false \/
   enum_iterator.lt a b = false /\ enum_iterator.eq a b = true /\ enum_iterator.gt a b = false \/
   enum_iterator.lt a b = false /\ enum_iterator.eq a b = false /\ enum_iterator.gt a b = true) /\
  (enum_iterator.lt a b = true -> enum_iterator.lt b c = true -> enum_iterator.lt a c = true).
Proof.
  destruct a as [p], b as [q], c as [r].
  unfold enum_iterator.ne, enum_iterator.eq, enum_iterator.gt, enum_iterator.lt,
    enum_iterator.le, enum_iterator.ge; simpl.
  rewrite Z.gtb_ltb, Z.geb_leb.
  split; [done|]. split; [done|].
  split; [destruct (Z.leb_spec p q), (Z.ltb_spec q p); (done || lia)|].
  split; [destruct (Z.leb_spec q p), (Z.ltb_spec p q); (done || lia)|].
  split; [rewrite Z.eqb_eq; split; [by intros -> | by intros [= ->]]|].
  split.
  - destruct (Z.ltb_spec p q), (Z.eqb_spec p q), (Z.ltb_spec q p); auto; lia.
  - rewrite !Z.ltb_lt. lia.
Qed.

Lemma comparison_operators_consistent_witness :
  enum_iterator.lt (enum_iterator.mk 0) (enum_iterator.mk 3) = true.
Proof.
  apply (comparison_operators_consistent
           (enum_iterator.mk 0) (enum_iterator.mk 1) (enum_iterator.mk 3));
    reflexivity.
Defined.

(** X2. Iterators that compare equal are interchangeable, as a forward
    iterator requires: they dereference to the same outcome and both
    increments give the same results. *)
Theorem equal_iterators_interchangeable (ity : integer_type) (Last : EnumType) (Step : Z)
    (a b : enum_iterator.t) :
  enum_iterator.eq a b = true ->
  enum_iterator.deref Last a = enum_iterator.deref Last b /\
  enum_iterator.pre_increment ity Step a = enum_iterator.pre_increment ity Step b /\
  enum_iterator.post_increment ity Step a = enum_iterator.post_increment ity Step b /\
  enum_iterator.eq (enum_iterator.copy a) b = true.
Proof.
  destruct a as [p], b as [q]. unfold enum_iterator.eq; simpl.
  intros ->%Z.eqb_eq. by rewrite Z.eqb_refl.
Qed.

Lemma equal_iterators_interchangeable_witness :
  enum_iterator.deref Foo.Count (enum_iterator.begin (enum_iterator.mk 2)) =
  enum_iterator.deref Foo.Count enum_iterator.default.
Proof.
  apply (equal_iterators_interchangeable Int32 Foo.Count 1
           (enum_iterator.begin (enum_iterator.mk 2)) enum_iterator.default).
  reflexivity.
Defined.

(** X3. An iterator constructed from an enumeration value dereferences to
    that value exactly when the value is below [Last], negative values
    included (only the upper bound is asserted), and that is exactly
    when the iterator compares [<] to [end()]; from [Last] upwards the
    dereference is a contract violation. *)
Theorem deref_of_constructed (Last index : EnumType) :
  (enum_iterator.deref Last (enum_iterator.from_index index) = Ok index <->
   to_integer index < to_integer Last) /\
  (enum_iterator.deref Last (enum_iterator.from_index index) = ContractViolation <->
   to_integer Last <= to_integer index) /\
  (enum_iterator.lt (enum_iterator.from_index index)
     (enum_iterator.end_ Last (enum_iterator.from_index index)) = true <->
   enum_iterator.deref Last (enum_iterator.from_index index) = Ok index).
Proof.
  destruct index as [e]. unfold enum_iterator.deref, enum_iterator.lt; simpl.
  destruct (Z.ltb_spec e (to_integer Last)); simpl;
    (split; [|split]); split; intros; (done || lia).
Qed.

(** X4. Where [p + Step] is still below [Last], [*(it++)] is the value at
    the old position [p] and [*(++it)] the value at [p + Step]; after
    either, the receiver dereferences to the value at [p + Step]. *)
Theorem deref_around_increment (ity : integer_type) (Last : EnumType) (Step : Z)
    (it : enum_iterator.t) :
  0 <= Step ->
  representable ity (enum_iterator.m_current it + Step) ->
  enum_iterator.m_current it + Step < to_integer Last ->
  (exists r it', enum_iterator.post_increment ity Step it = Ok (r, it') /\
     enum_iterator.deref Last r = Ok (to_enum (enum_iterator.m_current it)) /\
     enum_iterator.deref Last it' = Ok (to_enum (enum_iterator.m_current it + Step))) /\
  (exists r it', enum_iterator.pre_increment ity Step it = Ok (r, it') /\
     enum_iterator.deref Last r = Ok (to_enum (enum_iterator.m_current it + Step)) /\
     enum_iterator.deref Last it' = Ok (to_enum (enum_iterator.m_current it + Step))).
Proof.
  intros HS Hrep Hlt.
  unfold enum_iterator.post_increment, enum_iterator.pre_increment.
  rewrite (add_assign_exact _ _ _ Hrep). simpl.
  assert (Hnew : enum_iterator.deref Last (enum_iterator.mk (enum_iterator.m_current it + Step))
                 = Ok (to_enum (enum_iterator.m_current it + Step))).
  { unfold enum_iterator.deref; simpl.
    replace (enum_iterator.m_current it + Step <? to_integer Last) with true
      by (symmetry; apply Z.ltb_lt; lia). done. }
  assert (Hold : enum_iterator.deref Last (enum_iterator.copy it)
                 = Ok (to_enum (enum_iterator.m_current it))).
  { unfold enum_iterator.deref; simpl.
    replace (enum_iterator.m_current it <? to_integer Last) with true
      by (symmetry; apply Z.ltb_lt; lia). done. }
  split; eauto 6.
Qed.

Lemma deref_around_increment_witness :
  (exists r it', enum_iterator.post_increment Int32 1 enum_iterator.default = Ok (r, it') /\
     enum_iterator.deref Foo.Count r = Ok Foo.Bar /\
     enum_iterator.deref Foo.Count it' = Ok Foo.Baz) /\
  (exists r it', enum_iterator.pre_increment Int32 1 enum_iterator.default = Ok (r, it') /\
     enum_iterator.deref Foo.Count r = Ok Foo.Baz /\
     enum_iterator.deref Foo.Count it' = Ok Foo.Baz).
Proof.
  apply (deref_around_increment Int32 Foo.Count 1 enum_iterator.default).
  - lia.
  - vm_compute. split; discriminate.
  - reflexivity.
Defined.

(** X5. The loop [for (c = enum_iterator(first); c != c.end(); ++c)] with
    step 1: from a value [first <= Last] it comes to its end having read
    [first, first + 1, ..., Last - 1]; from a value above [Last] its first
    dereference is a contract violation. *)
Theorem traversal_from_constant (ity : integer_type) (Last first : EnumType) (fuel : nat) :
  representable ity (to_integer first) ->
  representable ity (to_integer Last) ->
  (Z.to_nat (to_integer Last - to_integer first) < fuel)%nat ->
  let start := enum_iterator.from_index first in
  let loop :=
    iterate enum_iterator.ne (enum_iterator.deref Last)
      (fun c => snd <$> enum_iterator.pre_increment ity 1 c)
      fuel start (enum_iterator.end_ Last start) in
  (to_integer first <= to_integer Last ->
   loop = Some (to_enum <$> seqZ (to_integer first) (to_integer Last - to_integer first),
                Ok tt)) /\
  (to_integer Last < to_integer first -> loop = Some ([], ContractViolation)).
Proof.
  intros [Hmin _] [_ Hmax] Hfuel start loop. subst start loop.
  destruct first as [e]. simpl in *. set (N := to_integer Last) in *.
  split.
  - intros Hle.
    set (pos := fun i : nat => enum_iterator.mk (e + Z.of_nat i)).
    replace (enum_iterator.from_index (to_enum e)) with (pos 0%nat)
      by (unfold pos, enum_iterator.from_index; simpl; f_equal; lia).
    apply iterate_finished.
    + intros i v Hi. rewrite list_lookup_fmap, fmap_Some in Hi.
      destruct Hi as (z & Hz & ->). apply lookup_seqZ in Hz as [-> Hlt].
      unfold enum_iterator.ne, enum_iterator.deref, enum_iterator.pre_increment, pos; simpl.
      fold N. repeat split.
      * apply negb_true_iff, Z.eqb_neq. lia.
      * replace (e + Z.of_nat i <? N) with true by (symmetry; apply Z.ltb_lt; lia). done.
      * rewrite add_assign_exact by (unfold representable; lia).
        simpl. do 2 f_equal. lia.
    + rewrite length_fmap, length_seqZ.
      unfold enum_iterator.ne, pos; simpl. fold N.
      apply negb_false_iff, Z.eqb_eq. lia.
    + rewrite length_fmap, length_seqZ. lia.
  - intros Hgt. destruct fuel as [|fuel]; [lia|]. simpl.
    unfold enum_iterator.ne, enum_iterator.deref; simpl. fold N.
    replace (e =? N) with false by (symmetry; apply Z.eqb_neq; lia).
    replace (e <? N) with false by (symmetry; apply Z.ltb_ge; lia).
    done.
Qed.

Lemma traversal_from_constant_witness :
  iterate enum_iterator.ne (enum_iterator.deref Foo.Count)
    (fun c => snd <$> enum_iterator.pre_increment Int32 1 c)
    3 (enum_iterator.from_index Foo.Baz)
    (enum_iterator.end_ Foo.Count (enum_iterator.from_index Foo.Baz)) =
  Some (to_enum <$> seqZ 1 (3 - 1), Ok tt).
Proof.
  apply (traversal_from_constant Int32 Foo.Count Foo.Baz 3).
  - vm_compute. split; discriminate.
  - vm_compute. split; discriminate.
  - vm_compute. lia.
  - simpl. lia.
Defined.

(** X6. A step that is a multiple of [2 ^ bits] of the underlying type (0
    for every type, 256 for an 8-bit one) does not move the position: with
    a terminal value above 0 the loop from [begin()] never comes to
    [end()], whatever the fuel. *)
Theorem stuck_step_never_terminates (ity : integer_type) (Last : EnumType) (Step : Z)
    (iter : enum_iterator.t) (fuel : nat) :
  0 <= Step <= max_value UInt32 ->
  (2 ^ bits ity | Step) ->
  0 < to_integer Last ->
  enum_iterator.pre_increment ity Step (enum_iterator.begin iter) =
    Ok (enum_iterator.begin iter, enum_iterator.begin iter) /\
  enum_iterator.range_for ity Last Step fuel iter = None.
Proof.
  intros HS [q Hq] HN.
  assert (Hadd : enum_iterator.add_assign ity Step 0 = Ok 0).
  { destruct (enum_iterator.add_assign ity Step 0) as [m| |] eqn:H.
    - f_equal. destruct (add_assign_congruent _ _ _ _ H) as [k Hk].
      apply (representable_congruent_eq ity m 0 (q + k)).
      + eapply add_assign_in_range; eauto.
      + split; [apply min_value_le_0 | destruct ity; vm_compute; congruence].
      + lia.
    - unfold enum_iterator.add_assign in H.
      repeat match type of H with (if ?c then _ else _) = _ => destruct c end;
        discriminate.
    - unfold enum_iterator.add_assign in H.
      destruct (bits ity <=? 32) eqn:Hb; [discriminate|].
      destruct (is_signed ity); [|discriminate].
      assert (Hstuck : Step = 0).
      { change (max_value UInt32) with 4294967295 in HS.
        destruct ity; try discriminate Hb; simpl in Hq; lia. }
      rewrite Hstuck in H.
      assert (Hzero : representableb ity (0 + 0) = true).
      { apply representableb_spec.
        split; [apply min_value_le_0 | destruct ity; vm_compute; congruence]. }
      rewrite Hzero in H. discriminate H. }
  assert (Hpre : enum_iterator.pre_increment ity Step (enum_iterator.mk 0) =
                 Ok (enum_iterator.mk 0, enum_iterator.mk 0)).
  { unfold enum_iterator.pre_increment; simpl. by rewrite Hadd. }
  split; [exact Hpre|].
  unfold enum_iterator.range_for, enum_iterator.begin, enum_iterator.default,
    enum_iterator.end_, enum_iterator.from_index.
  induction fuel as [|fuel IH]; [done|].
  cbn [iterate].
  assert (Hne : enum_iterator.ne (enum_iterator.mk 0) (enum_iterator.mk (to_integer Last)) = true).
  { unfold enum_iterator.ne. cbn [enum_iterator.m_current].
    apply negb_true_iff, Z.eqb_neq. lia. }
  assert (Hderef : enum_iterator.deref Last (enum_iterator.mk 0) = Ok (to_enum 0)).
  { unfold enum_iterator.deref. cbn [enum_iterator.m_current].
    replace (0 <? to_integer Last) with true by (symmetry; apply Z.ltb_lt; lia). done. }
  rewrite Hne, Hderef, Hpre. cbn [fmap outcome_fmap snd]. by rewrite IH.
Qed.

Lemma stuck_step_never_terminates_witness :
  enum_iterator.pre_increment UInt8 256 (enum_iterator.begin enum_iterator.default) =
    Ok (enum_iterator.begin enum_iterator.default, enum_iterator.begin enum_iterator.default) /\
  enum_iterator.range_for UInt8 Foo.Count 256 1000 enum_iterator.default = None.
Proof.
  apply (stuck_step_never_terminates UInt8 Foo.Count 256 enum_iterator.default 1000).
  - vm_compute. split; discriminate.
  - exists 1. reflexivity.
  - reflexivity.
Defined.

(** X7. With a terminal value of 0 the loop from [begin()] ends at once with
    nothing read, whatever the step; with a negative terminal value its
    first dereference is a contract violation. *)
Theorem nonpositive_terminal (ity : integer_type) (Last : EnumType) (Step : Z)
    (iter : enum_iterator.t) (fuel : nat) :
  (0 < fuel)%nat ->
  (to_integer Last = 0 ->
   enum_iterator.range_for ity Last Step fuel iter = Some ([], Ok tt)) /\
  (to_integer Last < 0 ->
   enum_iterator.range_for ity Last Step fuel iter = Some ([], ContractViolation)).
Proof.
  intros Hfuel. destruct fuel as [|fuel]; [lia|].
  unfold enum_iterator.range_for. cbn [iterate].
  unfold enum_iterator.ne, enum_iterator.deref, enum_iterator.begin, enum_iterator.default,
    enum_iterator.end_, enum_iterator.from_index.
  cbn [enum_iterator.m_current].
  split; intros HN.
  - by rewrite HN.
  - replace (0 =? to_integer Last) with false by (symmetry; apply Z.eqb_neq; lia).
    replace (0 <? to_integer Last) with false by (symmetry; apply Z.ltb_ge; lia).
    done.
Qed.

Lemma nonpositive_terminal_witness :
  enum_iterator.range_for Int32 (to_enum 0) 1 1 enum_iterator.default = Some ([], Ok tt) /\
  enum_iterator.range_for Int32 (to_enum (-1)) 1 1 enum_iterator.default =
    Some ([], ContractViolation).
Proof.
  split.
  - apply (nonpositive_terminal Int32 (to_enum 0) 1 enum_iterator.default 1); [lia | reflexivity].
  - apply (nonpositive_terminal Int32 (to_enum (-1)) 1 enum_iterator.default 1);
      [lia | simpl; lia].
Defined.

(** X8. An increment never asserts. Over a type of at most 32 bits, or an
    unsigned one, it is always defined: the new position is [p + Step]
    brought into the range of the type modulo [2 ^ bits], pre-increment
    returns the new state and post-increment a copy of the old one. Over a
    signed 64-bit type it is undefined exactly when [p + Step] is not
    representable. *)
Theorem increment_defined_or_overflow (ity : integer_type) (Step : Z) (it : enum_iterator.t) :
  enum_iterator.pre_increment ity Step it <> ContractViolation /\
  enum_iterator.post_increment ity Step it <> ContractViolation /\
  (bits ity <= 32 \/ is_signed ity = false ->
   exists it', enum_iterator.pre_increment ity Step it = Ok (it', it') /\
     enum_iterator.post_increment ity Step it = Ok (enum_iterator.copy it, it') /\
     representable ity (enum_iterator.m_current it') /\
     exists k, enum_iterator.m_current it' =
               enum_iterator.m_current it + Step + k * 2 ^ bits ity) /\
  (bits ity = 64 -> is_signed ity = true ->
   (enum_iterator.pre_increment ity Step it = Undefined <->
    ~ representable ity (enum_iterator.m_current it + Step)) /\
   (enum_iterator.post_increment ity Step it = Undefined <->
    ~ representable ity (enum_iterator.m_current it + Step))).
Proof.
  unfold enum_iterator.pre_increment, enum_iterator.post_increment.
  destruct (enum_iterator.add_assign ity Step (enum_iterator.m_current it)) as [m| |] eqn:Hadd.
  - cbn. split; [done|]. split; [done|]. split.
    + intros _. exists (enum_iterator.mk m).
      split; [done|]. split; [done|].
      split; [by eapply add_assign_in_range | by eapply add_assign_congruent].
    + intros Hb Hs. unfold enum_iterator.add_assign in Hadd. rewrite Hb, Hs in Hadd.
      simpl in Hadd.
      destruct (representableb ity (enum_iterator.m_current it + Step)) eqn:Hr; [|done].
      apply representableb_spec in Hr. split; split; (done || tauto).
  - exfalso. unfold enum_iterator.add_assign in Hadd.
    repeat match type of Hadd with (if ?c then _ else _) = _ => destruct c end;
      discriminate.
  - cbn. split; [done|]. split; [done|].
    unfold enum_iterator.add_assign in Hadd.
    destruct (Z.leb_spec (bits ity) 32) as [Hle|Hgt]; [discriminate|].
    destruct (is_signed ity) eqn:Hs; [|discriminate].
    destruct (representableb ity (enum_iterator.m_current it + Step)) eqn:Hr; [discriminate|].
    split; [intros [?|?]; (lia || discriminate)|].
    intros _ _.
    assert (~ representable ity (enum_iterator.m_current it + Step)).
    { rewrite <- representableb_spec. by rewrite Hr. }
    tauto.
Qed.

Lemma increment_defined_or_overflow_witness :
  (exists it', enum_iterator.pre_increment UInt8 1 (enum_iterator.mk 255) = Ok (it', it') /\
     enum_iterator.post_increment UInt8 1 (enum_iterator.mk 255) =
       Ok (enum_iterator.copy (enum_iterator.mk 255), it') /\
     representable UInt8 (enum_iterator.m_current it') /\
     exists k, enum_iterator.m_current it' = 255 + 1 + k * 2 ^ bits UInt8) /\
  (enum_iterator.pre_increment Int64 1 (enum_iterator.mk 9223372036854775807) = Undefined <->
   ~ representable Int64 (9223372036854775807 + 1)).
Proof.
  split.
  - apply (increment_defined_or_overflow UInt8 1 (enum_iterator.mk 255)).
    left. simpl. lia.
  - apply (increment_defined_or_overflow Int64 1 (enum_iterator.mk 9223372036854775807));
      reflexivity.
Defined.

(** X9. Absent overflow, an increment by a positive step moves the iterator
    forward in the order of the comparison operators. When [p + Step]
    overflows a type of at most 32 bits (or an unsigned one) and [Step] is
    below [2 ^ bits], the increment wraps and the iterator moves backward. *)
Theorem increment_moves_forward (ity : integer_type) (Step : Z) (it : enum_iterator.t) :
  0 < Step < 2 ^ bits ity ->
  representable ity (enum_iterator.m_current it) ->
  (representable ity (enum_iterator.m_current it + Step) ->
   exists it', enum_iterator.pre_increment ity Step it = Ok (it', it') /\
     enum_iterator.lt it it' = true /\ enum_iterator.le it it' = true /\
     enum_iterator.ne it it' = true /\ enum_iterator.gt it' it = true) /\
  (~ representable ity (enum_iterator.m_current it + Step) ->
   bits ity <= 32 \/ is_signed ity = false ->
   exists it', enum_iterator.pre_increment ity Step it = Ok (it', it') /\
     enum_iterator.lt it' it = true /\ enum_iterator.ne it it' = true).
Proof.
  intros HS Hp. destruct it as [p]. simpl in *. split.
  - intros Hrep. exists (enum_iterator.mk (p + Step)).
    unfold enum_iterator.pre_increment; simpl.
    rewrite (add_assign_exact _ _ _ Hrep).
    unfold enum_iterator.lt, enum_iterator.le, enum_iterator.ne, enum_iterator.gt; simpl.
    rewrite Z.gtb_ltb, negb_true_iff, Z.eqb_neq, !Z.ltb_lt, Z.leb_le.
    repeat split; (done || lia).
  - intros Hover Hdef.
    destruct (enum_iterator.add_assign ity Step p) as [m| |] eqn:Hadd.
    + exists (enum_iterator.mk m).
      unfold enum_iterator.pre_increment; simpl. rewrite Hadd.
      split; [done|].
      destruct (add_assign_congruent _ _ _ _ Hadd) as [k Hk].
      pose proof (add_assign_in_range _ _ _ _ Hadd) as Hm.
      unfold enum_iterator.lt, enum_iterator.ne; simpl.
      rewrite negb_true_iff, Z.eqb_neq, Z.ltb_lt.
      unfold representable in *.
      set (M := 2 ^ bits ity) in *.
      assert (k < 0) by nia.
      assert (k * M <= - M) by nia.
      lia.
    + exfalso. unfold enum_iterator.add_assign in Hadd.
      repeat match type of Hadd with (if ?c then _ else _) = _ => destruct c end;
        discriminate.
    + exfalso. unfold enum_iterator.add_assign in Hadd.
      destruct (Z.leb_spec (bits ity) 32); [discriminate|].
      destruct (is_signed ity); [|discriminate].
      destruct Hdef; [lia | discriminate].
Qed.

Lemma increment_moves_forward_witness :
  (exists it', enum_iterator.pre_increment Int32 1 (enum_iterator.mk 2) = Ok (it', it') /\
     enum_iterator.lt (enum_iterator.mk 2) it' = true /\
     enum_iterator.le (enum_iterator.mk 2) it' = true /\
     enum_iterator.ne (enum_iterator.mk 2) it' = true /\
     enum_iterator.gt it' (enum_iterator.mk 2) = true) /\
  (exists it', enum_iterator.pre_increment UInt8 2 (enum_iterator.mk 255) = Ok (it', it') /\
     enum_iterator.lt it' (enum_iterator.mk 255) = true /\
     enum_iterator.ne (enum_iterator.mk 255) it' = true).
Proof.
  split.
  - apply (increment_moves_forward Int32 1 (enum_iterator.mk 2)).
    + vm_compute. split; reflexivity.
    + vm_compute. split; discriminate.
    + vm_compute. split; discriminate.
  - apply (increment_moves_forward UInt8 2 (enum_iterator.mk 255)).
    + vm_compute. split; reflexivity.
    + vm_compute. split; discriminate.
    + unfold representable. vm_compute. intros [_ H]. apply H. reflexivity.
    + left. simpl. lia.
Defined.

(** * Further properties of [enum_array] *)

(** X10. After [array[k] = v] at an in-range position, [array[k]] reads [v]
    and every other index, by position or by key, reads (or fails) as
    before. *)
Theorem get_after_set {DataType : Type} (ArraySize : EnumType)
    (a : enum_array.t DataType) (k : Z) (v : DataType) :
  enum_array.well_formed ArraySize a ->
  0 <= k < enum_array.size ArraySize ->
  exists a' : enum_array.t DataType,
    enum_array.set ArraySize a k v = Ok a' /\
    enum_array.get ArraySize a' k = Ok v /\
    (forall j : Z, j <> k -> enum_array.get ArraySize a' j = enum_array.get ArraySize a j) /\
    (forall key : EnumType, to_size_t (to_integer key) <> k ->
       enum_array.get_key ArraySize a' key = enum_array.get_key ArraySize a key).
Proof.
  intros Hwf Hk. unfold enum_array.well_formed in Hwf.
  set (a' := enum_array.mk (<[Z.to_nat k := v]> (enum_array.m_elements a))).
  assert (Hother : forall j : Z, j <> k ->
            enum_array.get ArraySize a' j = enum_array.get ArraySize a j).
  { intros j Hj. unfold enum_array.get, enum_array.subscript.
    destruct (j <? enum_array.size ArraySize); [|done]. simpl.
    unfold enum_array.load. destruct (Z.leb_spec 0 j); [|done].
    unfold a'; simpl. rewrite list_lookup_insert_ne by lia. done. }
  exists a'. split; [|split; [|split]].
  - unfold enum_array.set. rewrite subscript_in_range by lia. simpl.
    rewrite <- (Z2Nat.id k) at 1 by lia. apply store_in_range. lia.
  - rewrite <- (Z2Nat.id k) by lia. apply get_lookup.
    + unfold enum_array.well_formed, a'; simpl. by rewrite length_insert.
    + unfold a'; simpl. apply list_lookup_insert_eq. lia.
  - exact Hother.
  - intros key Hkey. unfold enum_array.get_key.
    rewrite !subscript_key_as_position. by apply Hother.
Qed.

Lemma get_after_set_witness :
  exists a' : enum_array.t Z,
    enum_array.set Foo.Count (enum_array.mk [10; 20; 30]) 1 7 = Ok a' /\
    enum_array.get Foo.Count a' 1 = Ok 7 /\
    (forall j : Z, j <> 1 ->
       enum_array.get Foo.Count a' j = enum_array.get Foo.Count (enum_array.mk [10; 20; 30]) j) /\
    (forall key : EnumType, to_size_t (to_integer key) <> 1 ->
       enum_array.get_key Foo.Count a' key =
       enum_array.get_key Foo.Count (enum_array.mk [10; 20; 30]) key).
Proof.
  apply (get_after_set Foo.Count (enum_array.mk [10; 20; 30]) 1 7).
  - reflexivity.
  - vm_compute. split; [discriminate | reflexivity].
Defined.

(** X11. Two writes at the same in-range position leave the second value;
    writes at two different in-range positions give the same array in either
    order. *)
Theorem set_twice {DataType : Type} (ArraySize : EnumType)
    (a : enum_array.t DataType) (j k : Z) (v w : DataType) :
  enum_array.well_formed ArraySize a ->
  0 <= j < enum_array.size ArraySize ->
  0 <= k < enum_array.size ArraySize ->
  (a1 ← enum_array.set ArraySize a k v; enum_array.set ArraySize a1 k w) =
    enum_array.set ArraySize a k w /\
  (j <> k ->
   (a1 ← enum_array.set ArraySize a j v; enum_array.set ArraySize a1 k w) =
   (a1 ← enum_array.set ArraySize a k w; enum_array.set ArraySize a1 j v)).
Proof.
  intros Hwf Hj Hk. unfold enum_array.well_formed in Hwf.
  assert (Hset : forall (b : enum_array.t DataType) (i : Z) (x : DataType),
            length (enum_array.m_elements b) = length (enum_array.m_elements a) ->
            0 <= i < enum_array.size ArraySize ->
            enum_array.set ArraySize b i x =
            Ok (enum_array.mk (<[Z.to_nat i := x]> (enum_array.m_elements b)))).
  { intros b i x Hlen Hi. unfold enum_array.set.
    rewrite subscript_in_range by lia. simpl.
    rewrite <- (Z2Nat.id i) at 1 by lia. apply store_in_range. lia. }
  split.
  - rewrite (Hset a k v), (Hset a k w) by done. simpl.
    rewrite Hset by (simpl; rewrite ?length_insert; done). simpl.
    by rewrite list_insert_insert_eq.
  - intros Hne.
    rewrite (Hset a j v), (Hset a k w) by done. simpl.
    rewrite !Hset by (simpl; rewrite ?length_insert; done). simpl.
    rewrite list_insert_insert_ne by lia. done.
Qed.

Lemma set_twice_witness :
  (a1 ← enum_array.set Foo.Count (enum_array.mk [10; 20; 30]) 1 7;
   enum_array.set Foo.Count a1 1 8) =
    enum_array.set Foo.Count (enum_array.mk [10; 20; 30]) 1 8 /\
  (0 <> 1 ->
   (a1 ← enum_array.set Foo.Count (enum_array.mk [10; 20; 30]) 0 7;
    enum_array.set Foo.Count a1 1 8) =
   (a1 ← enum_array.set Foo.Count (enum_array.mk [10; 20; 30]) 1 8;
    enum_array.set Foo.Count a1 0 7)).
Proof.
  apply (set_twice Foo.Count (enum_array.mk [10; 20; 30]) 0 1 7 8).
  - reflexivity.
  - vm_compute. split; [discriminate | reflexivity].
  - vm_compute. split; [discriminate | reflexivity].
Defined.

(** X12. Inside the array the raw iterators and the checked accessors agree:
    [*(begin() + k)] reads and writes what [array[k]] does. At [end()] they
    part: [array[size()]] is a contract violation, while reading, writing or
    advancing the raw iterator there, and stepping back from [begin()] or
    dereferencing [rend()], carry no assertion and are undefined. *)
Theorem checked_and_unchecked_access {DataType : Type} (ArraySize : EnumType)
    (a : enum_array.t DataType) (v : DataType) :
  enum_array.well_formed ArraySize a ->
  (forall k : Z, 0 <= k < enum_array.size ArraySize ->
     enum_array.load a (enum_array.begin a + k) = enum_array.get ArraySize a k /\
     enum_array.store a (enum_array.begin a + k) v = enum_array.set ArraySize a k v) /\
  enum_array.get ArraySize a (enum_array.end_ ArraySize a) = ContractViolation /\
  enum_array.set ArraySize a (enum_array.end_ ArraySize a) v = ContractViolation /\
  enum_array.load a (enum_array.end_ ArraySize a) = Undefined /\
  enum_array.store a (enum_array.end_ ArraySize a) v = Undefined /\
  enum_array.pointer_next a (enum_array.end_ ArraySize a) = Undefined /\
  enum_array.pointer_prev a (enum_array.begin a) = Undefined /\
  enum_array.reverse_deref a (enum_array.rend a) = Undefined.
Proof.
  intros Hwf. unfold enum_array.well_formed in Hwf.
  unfold enum_array.end_, enum_array.begin, enum_array.rend.
  split.
  { intros k Hk. unfold enum_array.get, enum_array.set.
    rewrite subscript_in_range by lia. done. }
  unfold enum_array.get, enum_array.set.
  rewrite subscript_out_of_range by lia.
  split; [done|]. split; [done|].
  unfold enum_array.load, enum_array.store, enum_array.pointer_next,
    enum_array.reverse_deref, enum_array.pointer_prev; simpl.
  rewrite <- Hwf, Nat2Z.id, Z.ltb_irrefl, andb_false_r.
  rewrite (lookup_ge_None_2 (enum_array.m_elements a)) by lia.
  replace (0 <=? Z.of_nat (length (enum_array.m_elements a))) with true
    by (symmetry; apply Z.leb_le; lia).
  done.
Qed.

Lemma checked_and_unchecked_access_witness :
  enum_array.get Foo.Count (enum_array.mk [10; 20; 30])
    (enum_array.end_ Foo.Count (enum_array.mk [10; 20; 30])) = ContractViolation /\
  enum_array.load (enum_array.mk [10; 20; 30])
    (enum_array.end_ Foo.Count (enum_array.mk [10; 20; 30])) = Undefined.
Proof.
  destruct (checked_and_unchecked_access Foo.Count (enum_array.mk [10; 20; 30]) 7)
    as (_ & Hget & _ & Hload & _); [reflexivity|].
  split; [exact Hget | exact Hload].
Defined.

(** X13. Aggregate initialisation with at most [size()] values gives an
    array of exactly [size()] slots: the given values in order, then
    value-initialised slots; with more values than slots there is no
    array. *)
Theorem aggregate_init_shape {DataType : Type} (ArraySize : EnumType)
    (value_init : DataType) (vs : list DataType) :
  (Z.of_nat (length vs) <= enum_array.size ArraySize ->
   exists a : enum_array.t DataType,
     enum_array.aggregate_init ArraySize value_init vs = Some a /\
     enum_array.well_formed ArraySize a /\
     (forall (i : nat) (v : DataType), vs !! i = Some v ->
        enum_array.get ArraySize a (Z.of_nat i) = Ok v) /\
     (forall i : Z, Z.of_nat (length vs) <= i < enum_array.size ArraySize ->
        enum_array.get ArraySize a i = Ok value_init)) /\
  (enum_array.size ArraySize < Z.of_nat (length vs) ->
   enum_array.aggregate_init ArraySize value_init vs = None).
Proof.
  unfold enum_array.aggregate_init. split.
  - intros Hle.
    replace (Z.of_nat (length vs) <=? enum_array.size ArraySize) with true
      by (symmetry; apply Z.leb_le; lia).
    set (pad := replicate (Z.to_nat (enum_array.size ArraySize) - length vs)%nat value_init).
    assert (Hwf : enum_array.well_formed ArraySize (enum_array.mk (vs ++ pad))).
    { unfold enum_array.well_formed, pad; simpl.
      rewrite length_app, length_replicate. lia. }
    exists (enum_array.mk (vs ++ pad)).
    split; [done|]. split; [done|]. split.
    + intros i v Hi. apply get_lookup; [done|]. simpl. by apply lookup_app_l_Some.
    + intros i Hi. rewrite <- (Z2Nat.id i) by lia.
      apply get_lookup; [done|]. simpl.
      rewrite lookup_app_r by lia. apply lookup_replicate_2. lia.
  - intros Hgt.
    replace (Z.of_nat (length vs) <=? enum_array.size ArraySize) with false
      by (symmetry; apply Z.leb_gt; lia).
    done.
Qed.

Lemma aggregate_init_shape_witness :
  (exists a : enum_array.t Z,
     enum_array.aggregate_init Foo.Count 0 [10; 20] = Some a /\
     enum_array.well_formed Foo.Count a /\
     (forall (i : nat) (v : Z), [10; 20] !! i = Some v ->
        enum_array.get Foo.Count a (Z.of_nat i) = Ok v) /\
     (forall i : Z, Z.of_nat (length [10; 20]) <= i < enum_array.size Foo.Count ->
        enum_array.get Foo.Count a i = Ok 0)) /\
  enum_array.aggregate_init Foo.Count 0 [10; 20; 30; 40] = None.
Proof.
  split.
  - apply (aggregate_init_shape Foo.Count 0 [10; 20]). vm_compute. discriminate.
  - apply (aggregate_init_shape Foo.Count 0 [10; 20; 30; 40]). reflexivity.
Defined.

(** X14. A write through [array[k] = v] at an in-range position is what the
    traversals then read: forward, the old elements with [v] at position
    [k]; backward, the reverse of that. *)
Theorem traversal_after_set {DataType : Type} (ArraySize : EnumType)
    (a : enum_array.t DataType) (k : Z) (v : DataType) (fuel : nat) :
  enum_array.well_formed ArraySize a ->
  0 <= k < enum_array.size ArraySize ->
  (length (enum_array.m_elements a) < fuel)%nat ->
  exists a' : enum_array.t DataType,
    enum_array.set ArraySize a k v = Ok a' /\
    enum_array.for_elements ArraySize fuel a' =
      Some (<[Z.to_nat k := v]> (enum_array.m_elements a), Ok tt) /\
    enum_array.for_elements_reversed ArraySize fuel a' =
      Some (reverse (<[Z.to_nat k := v]> (enum_array.m_elements a)), Ok tt).
Proof.
  intros Hwf Hk Hfuel. unfold enum_array.well_formed in Hwf.
  set (a' := enum_array.mk (<[Z.to_nat k := v]> (enum_array.m_elements a))).
  assert (Hwf' : enum_array.well_formed ArraySize a').
  { unfold enum_array.well_formed, a'; simpl. by rewrite length_insert. }
  assert (Hfuel' : (length (enum_array.m_elements a') < fuel)%nat).
  { unfold a'; simpl. by rewrite length_insert. }
  exists a'. split; [|split].
  - unfold enum_array.set. rewrite subscript_in_range by lia. simpl.
    rewrite <- (Z2Nat.id k) at 1 by lia. apply store_in_range. lia.
  - by apply for_elements_all.
  - by apply for_elements_reversed_all.
Qed.

Lemma traversal_after_set_witness :
  exists a' : enum_array.t Z,
    enum_array.set Foo.Count (enum_array.mk [10; 20; 30]) 1 7 = Ok a' /\
    enum_array.for_elements Foo.Count 4 a' =
      Some (<[Z.to_nat 1 := 7]> [10; 20; 30], Ok tt) /\
    enum_array.for_elements_reversed Foo.Count 4 a' =
      Some (reverse (<[Z.to_nat 1 := 7]> [10; 20; 30]), Ok tt).
Proof.
  apply (traversal_after_set Foo.Count (enum_array.mk [10; 20; 30]) 1 7 4).
  - reflexivity.
  - vm_compute. split; [discriminate | reflexivity].
  - simpl. lia.
Defined.

(** * A loop on [operator <] *)

(** X15. The loop [for (c = iter.begin(); c < iter.end(); ++c)], which tests
    with [operator <] instead of [!=], comes to its end for every positive
    step, whether or not the step divides the terminal value [N >= 0]: it
    reads exactly the multiples of the step below [N], as long as the last
    increment does not overflow. *)
Theorem less_than_loop_terminates (ity : integer_type) (Last : EnumType) (Step : Z)
    (iter : enum_iterator.t) (fuel : nat) :
  0 < Step ->
  0 <= to_integer Last ->
  to_integer Last + Step <= max_value ity ->
  (Z.to_nat ((to_integer Last + Step - 1) / Step) < fuel)%nat ->
  iterate enum_iterator.lt (enum_iterator.deref Last)
    (fun c => snd <$> enum_iterator.pre_increment ity Step c)
    fuel (enum_iterator.begin iter) (enum_iterator.end_ Last iter) =
  Some (to_enum <$> multiples_below Step (to_integer Last), Ok tt).
Proof.
  set (N := to_integer Last). set (rounds := (N + Step - 1) / Step).
  intros HS HN Hmax Hfuel.
  destruct (ceil_div_bounds Step N HS HN) as (Hk0 & Hk). fold rounds in Hk0, Hk.
  pose proof (min_value_le_0 ity) as Hmin.
  set (vals := to_enum <$> multiples_below Step N).
  assert (Hlen : length vals = Z.to_nat rounds).
  { unfold vals. by rewrite length_fmap, length_multiples_below. }
  set (pos := fun i : nat => enum_iterator.mk (Z.of_nat i * Step)).
  change (enum_iterator.begin iter) with (pos 0%nat).
  apply iterate_finished; [| |lia].
  - intros i v Hi. unfold vals in Hi.
    rewrite list_lookup_fmap, fmap_Some in Hi. destruct Hi as (z & Hz & ->).
    apply lookup_multiples_below in Hz as [-> Hlt]; [|done..].
    unfold enum_iterator.lt, enum_iterator.deref, enum_iterator.pre_increment.
    cbn [enum_iterator.m_current enum_iterator.end_ enum_iterator.from_index pos].
    fold N.
    replace (Z.of_nat i * Step <? N) with true by (symmetry; apply Z.ltb_lt; lia).
    repeat split.
    rewrite add_assign_exact by (unfold representable; lia).
    simpl. unfold pos. do 2 f_equal. lia.
  - unfold enum_iterator.lt, pos.
    cbn [enum_iterator.m_current enum_iterator.end_ enum_iterator.from_index].
    fold N. rewrite Hlen, Z2Nat.id by done. apply Z.ltb_ge. lia.
Qed.

Lemma less_than_loop_terminates_witness :
  iterate enum_iterator.lt (enum_iterator.deref Foo.Count)
    (fun c => snd <$> enum_iterator.pre_increment Int32 2 c)
    3 (enum_iterator.begin enum_iterator.default)
    (enum_iterator.end_ Foo.Count enum_iterator.default) =
  Some (to_enum <$> multiples_below 2 3, Ok tt).
Proof.
  apply (less_than_loop_terminates Int32 Foo.Count 2 enum_iterator.default 3).
  - lia.
  - simpl. lia.
  - vm_compute. discriminate.
  - vm_compute. lia.
Defined.
